(** * The LRU cache of the performance-patterns repository

    The repository contains one piece of original logic: the class
    [LRUCache], which appears twice,
      - in [src/benchmarks/caching-benchmarks.js] (lines 15-36), and
      - in the memory-management guide [src/unnamed/part_006] (lines 84-108),
    with the same constructor and the same [set], and two different [get]
    methods.  Both are built on a JavaScript [Map], whose iteration order is
    the insertion order of its keys.

    This file embeds the [Map] operations the class uses, the two variants of
    the class, and proves what the specification says about them.  It then
    covers the code around the class: the benchmark functions that call it,
    and the other snippets of the guide ([memoize], [ObjectPool],
    [getCachedData], the growth monitor). *)

From Stdlib Require Import ZArith List String Bool Lia.
From Stdlib Require Import DecimalString DecimalZ Permutation.
Import ListNotations.
Open Scope string_scope.
Open Scope list_scope.
Open Scope Z_scope.

(** ** JavaScript values

    Keys and values of a [Map] are arbitrary JavaScript values.  Numbers are
    restricted to the integers (no claim depends on fractions, [NaN] or the
    sign of zero); an object is its reference. *)

Inductive JsValue : Type :=
| JsUndefined
| JsNull
| JsBool (b : bool)
| JsNumber (n : Z)
| JsString (s : string)
| JsObject (ref : nat).

Definition JsValue_eq_dec (x y : JsValue) : {x = y} + {x <> y}.
Proof.
  decide equality.
  - apply Bool.bool_dec.
  - apply Z.eq_dec.
  - apply string_dec.
  - apply Nat.eq_dec.
Defined.

(** [Map] compares keys with SameValueZero: on the values above, plain
    equality. *)
Definition same_value_zero (x y : JsValue) : bool :=
  if JsValue_eq_dec x y then true else false.

(** Truthiness, as tested by [if (item)] and [if (!user)]. *)
Definition truthy (v : JsValue) : bool :=
  match v with
  | JsUndefined => false
  | JsNull => false
  | JsBool b => b
  | JsNumber n => negb (n =? 0)
  | JsString s => negb (String.eqb s "")
  | JsObject _ => true
  end.

(** The outcome of evaluating an expression that may throw: [new C(...)]
    either yields the object or throws an error, named here by its name. *)
Inductive completion (A : Type) : Type :=
| Normal (a : A)
| Throw (error : string).

Arguments Normal {A} a.
Arguments Throw {A} error.

(** ** The JavaScript [Map]

    A [Map] keeps its entries in insertion order and holds each key at most
    once: a list of pairs, oldest insertion first. *)

Module Map.

Definition t : Type := list (JsValue * JsValue).

(** [new Map()] *)
Definition empty : t := [].

(** [m.size] *)
Definition size (m : t) : Z := Z.of_nat (List.length m).

(** [m.has(key)] *)
Fixpoint has (m : t) (key : JsValue) : bool :=
  match m with
  | [] => false
  | (k, _) :: rest => if same_value_zero k key then true else has rest key
  end.

(** [m.get(key)]: [undefined] when the key is not there. *)
Fixpoint get (m : t) (key : JsValue) : JsValue :=
  match m with
  | [] => JsUndefined
  | (k, v) :: rest => if same_value_zero k key then v else get rest key
  end.

(** [m.delete(key)]: the entry of [key] leaves the order (a [Map] holds a
    key at most once, see [wf]); the others keep their relative position.
    The boolean that [delete] returns is never used by the class. *)
Fixpoint delete (m : t) (key : JsValue) : t :=
  match m with
  | [] => []
  | (k, v) :: rest =>
      if same_value_zero k key then delete rest key
      else (k, v) :: delete rest key
  end.

(** [m.set(key, value)]: a key that is there keeps its position and gets
    the new value; a new key goes to the end of the order. *)
Fixpoint set (m : t) (key value : JsValue) : t :=
  match m with
  | [] => [(key, value)]
  | (k, v) :: rest =>
      if same_value_zero k key then (k, value) :: rest
      else (k, v) :: set rest key value
  end.

(** [m.keys().next().value]: the oldest key, [undefined] on an empty map. *)
Definition first_key (m : t) : JsValue :=
  match m with
  | [] => JsUndefined
  | (k, _) :: _ => k
  end.

(** The keys in iteration order, and the key at the young end of it. *)
Definition keys (m : t) : list JsValue := List.map fst m.

Definition last_key (m : t) : option JsValue :=
  match rev (keys m) with
  | [] => None
  | k :: _ => Some k
  end.

(** A list is a [Map] when no key occurs twice. *)
Definition wf (m : t) : Prop := NoDup (keys m).

End Map.

(** ** The class [LRUCache]

    Both variants have the two fields [maxSize] and [cache]. *)

Record LRUCache : Type := mkLRUCache {
  maxSize : Z;
  cache : Map.t
}.

(** [this.cache.size], [this.cache.has(key)] as the observers the
    specification calls [size()] and [containsKey(key)]. *)
Definition size (this : LRUCache) : Z := Map.size (cache this).
Definition containsKey (this : LRUCache) (key : JsValue) : bool :=
  Map.has (cache this) key.

(** The key at the most-recently-used end of the recency order. *)
Definition mostRecent (this : LRUCache) : option JsValue :=
  Map.last_key (cache this).

(** *** Variant of [src/benchmarks/caching-benchmarks.js] *)

Module Bench.

(** [constructor(maxSize) { this.maxSize = maxSize; this.cache = new Map(); }] *)
Definition constructor (maxSize : Z) : LRUCache :=
  {| maxSize := maxSize; cache := Map.empty |}.

(** [new LRUCache(maxSize)]: the constructor has no [throw]. *)
Definition new_LRUCache (maxSize : Z) : completion LRUCache :=
  Normal (constructor maxSize).

(** What [get] returns on a miss: [null]. *)
Definition absent : JsValue := JsNull.

(** [get(key)]: lines 21-27. *)
Definition get (this : LRUCache) (key : JsValue) : JsValue * LRUCache :=
  if negb (Map.has (cache this) key) then (JsNull, this)
  else
    let value := Map.get (cache this) key in
    let c1 := Map.delete (cache this) key in
    let c2 := Map.set c1 key value in
    (value, {| maxSize := maxSize this; cache := c2 |}).

(** [set(key, value)]: lines 29-35. *)
Definition set (this : LRUCache) (key value : JsValue) : LRUCache :=
  let c1 :=
    if Map.size (cache this) >=? maxSize this then
      let firstKey := Map.first_key (cache this) in
      Map.delete (cache this) firstKey
    else cache this in
  {| maxSize := maxSize this; cache := Map.set c1 key value |}.

End Bench.

(** *** Variant of the memory-management guide, [src/unnamed/part_006] *)

Module Guide.

Definition constructor (maxSize : Z) : LRUCache :=
  {| maxSize := maxSize; cache := Map.empty |}.

Definition new_LRUCache (maxSize : Z) : completion LRUCache :=
  Normal (constructor maxSize).

(** What [get] returns on a miss: the [undefined] of [Map.get]. *)
Definition absent : JsValue := JsUndefined.

(** [get(key)]: lines 90-98.  The entry is refreshed when the stored item
    is truthy. *)
Definition get (this : LRUCache) (key : JsValue) : JsValue * LRUCache :=
  let item := Map.get (cache this) key in
  if truthy item then
    let c1 := Map.delete (cache this) key in
    let c2 := Map.set c1 key item in
    (item, {| maxSize := maxSize this; cache := c2 |})
  else (item, this).

(** [set(key, value)]: lines 100-107. *)
Definition set (this : LRUCache) (key value : JsValue) : LRUCache :=
  let c1 :=
    if Map.size (cache this) >=? maxSize this then
      let firstKey := Map.first_key (cache this) in
      Map.delete (cache this) firstKey
    else cache this in
  {| maxSize := maxSize this; cache := Map.set c1 key value |}.

End Guide.

(** The refresh both [get] methods perform on a hit: delete the key, then set
    it again with the value it had. *)
Definition refresh (m : Map.t) (key : JsValue) : Map.t :=
  Map.set (Map.delete m key) key (Map.get m key).

(** ** Calls, and the time at which they happen

    A call site may pass more arguments than a method declares: JavaScript
    binds the declared parameters in order, a missing one to [undefined], and
    drops the surplus. *)

Definition argument (args : list JsValue) (i : nat) : JsValue :=
  nth i args JsUndefined.

(** A cache instance together with the clock of its process.  Neither variant
    of the class reads the clock ([Date.now] does not occur in it), and no
    timer is attached to an instance. *)
Record World : Type := mkWorld {
  now : Z;
  lru : LRUCache
}.

Definition elapse (d : Z) (w : World) : World :=
  {| now := now w + d; lru := lru w |}.

(** [lruCache.set(...args)] and [lruCache.get(...args)] at the time of [w],
    for a [set] method of two parameters and a [get] method of one. *)
Definition call_set (set : LRUCache -> JsValue -> JsValue -> LRUCache)
    (w : World) (args : list JsValue) : World :=
  {| now := now w; lru := set (lru w) (argument args 0) (argument args 1) |}.

Definition call_get (get : LRUCache -> JsValue -> JsValue * LRUCache)
    (w : World) (args : list JsValue) : JsValue * World :=
  let r := get (lru w) (argument args 0) in
  (fst r, {| now := now w; lru := snd r |}).

(** ** Histories of calls on one instance *)

Inductive op : Type :=
| OpGet (key : JsValue)
| OpSet (key value : JsValue).

Section History.

Variable get : LRUCache -> JsValue -> JsValue * LRUCache.
Variable set : LRUCache -> JsValue -> JsValue -> LRUCache.

Definition step (this : LRUCache) (o : op) : LRUCache :=
  match o with
  | OpGet key => snd (get this key)
  | OpSet key value => set this key value
  end.

(** The instance after the calls of [ops], oldest call first. *)
Definition run (this : LRUCache) (ops : list op) : LRUCache :=
  fold_left step ops this.

End History.

(** The value passed to the most recent [set] of [key] in a history. *)
Fixpoint last_set (ops : list op) (key : JsValue) : option JsValue :=
  match ops with
  | [] => None
  | o :: rest =>
      match last_set rest key with
      | Some v => Some v
      | None =>
          match o with
          | OpSet k v => if same_value_zero k key then Some v else None
          | OpGet _ => None
          end
      end
  end.

(** The history made of [set] calls only, one per pair. *)
Definition sets (kvs : list (JsValue * JsValue)) : list op :=
  List.map (fun kv => OpSet (fst kv) (snd kv)) kvs.

(** ** Eviction, in the words of the specification and in the code

    The specification (section 4.1) evicts in one case only: a [set] of a key
    that is not in the cache finds the cache full.  [capacity_pressure]
    follows these words; it is what the round trip of the specification
    excepts. *)
Definition capacity_pressure (this : LRUCache) (o : op) : bool :=
  match o with
  | OpSet key _ => negb (containsKey this key) && (size this >=? maxSize this)
  | OpGet _ => false
  end.

(** What [set] does (lines 30-33): a [set] on a full cache deletes the oldest
    key, whatever key is being set; [k] goes when it is that oldest key and
    is not the key being set again. *)
Definition evicts (this : LRUCache) (o : op) (k : JsValue) : bool :=
  match o with
  | OpSet key _ =>
      negb (same_value_zero key k) && (size this >=? maxSize this)
      && same_value_zero (Map.first_key (cache this)) k
  | OpGet _ => false
  end.

(** Whether a call is a [set] of [k]. *)
Definition sets_key (k : JsValue) (o : op) : bool :=
  match o with
  | OpSet key _ => same_value_zero key k
  | OpGet _ => false
  end.

Section Along.

Variable get : LRUCache -> JsValue -> JsValue * LRUCache.
Variable set : LRUCache -> JsValue -> JsValue -> LRUCache.

(** Whether some call of the history meets capacity pressure. *)
Fixpoint pressure_along (this : LRUCache) (ops : list op) : bool :=
  match ops with
  | [] => false
  | o :: rest =>
      capacity_pressure this o || pressure_along (step get set this o) rest
  end.

(** Whether some call of the history evicts [k]. *)
Fixpoint evicted_along (this : LRUCache) (ops : list op) (k : JsValue)
    : bool :=
  match ops with
  | [] => false
  | o :: rest =>
      evicts this o k || evicted_along (step get set this o) rest k
  end.

End Along.

(** ** The scenarios of the specification

    [set(a,1)], [set(b,2)], [get(a)], [set(c,3)] on a given instance. *)
Definition eviction_scenario
    (get : LRUCache -> JsValue -> JsValue * LRUCache)
    (set : LRUCache -> JsValue -> JsValue -> LRUCache)
    (this : LRUCache) (a b c : JsValue) : LRUCache :=
  let s1 := set this a (JsNumber 1) in
  let s2 := set s1 b (JsNumber 2) in
  let s3 := snd (get s2 a) in
  set s3 c (JsNumber 3).

(** [set(a,1)], [set(b,2)] with no call in between. *)
Definition tie_scenario
    (set : LRUCache -> JsValue -> JsValue -> LRUCache)
    (this : LRUCache) (a b : JsValue) : LRUCache :=
  set (set this a (JsNumber 1)) b (JsNumber 2).

(** ** The callers of the cache in [src/benchmarks/caching-benchmarks.js]

    The benchmark functions pick a user id (at random; here an argument),
    build the key with the template [`user:${userId}`] and ask the database
    with [findOne] when the cache has nothing to offer.  The database is read
    only: [findOne] is a function of the id, the document or [null]. *)

(** [`user:${userId}`] for an integer [userId]: its decimal digits. *)
Definition user_key (userId : Z) : JsValue :=
  JsString (String.append "user:" (NilZero.string_of_int (Z.to_int userId))).

(** The body of the ['LRU cache'] benchmark, lines 116-125, on the instance
    [lruCache]; the boolean tells whether the database was queried. *)
Definition lru_benchmark_fn (findOne : Z -> JsValue)
    (lruCache : LRUCache) (userId : Z) : LRUCache * bool :=
  let cacheKey := user_key userId in
  let r := Bench.get lruCache cacheKey in
  let user := fst r in
  if negb (truthy user) then
    let user := findOne userId in
    (Bench.set (snd r) cacheKey user, true)
  else (snd r, false).

(** The body of the ['In-memory cache'] benchmark, lines 85-95, on the plain
    map [memoryCache]. *)
Definition memory_benchmark_fn (findOne : Z -> JsValue)
    (memoryCache : Map.t) (userId : Z) : Map.t * bool :=
  let cacheKey := user_key userId in
  if Map.has memoryCache cacheKey then (memoryCache, false)
  else
    let user := findOne userId in
    (Map.set memoryCache cacheKey user, true).

(** The loop of [runTimedCacheBenchmarks], lines 173-175:
    [for (let i = 0; i < iterations; i++) lruCache.get(key)]. *)
Fixpoint get_loop (iterations : nat) (lruCache : LRUCache) (key : JsValue)
    : LRUCache :=
  match iterations with
  | O => lruCache
  | S n => get_loop n (snd (Bench.get lruCache key)) key
  end.

(** A document of the [users] collection: its [_id] and the object. *)
Record User : Type := mkUser {
  _id : Z;
  document : JsValue
}.

(** The entry that the loads below write for a user. *)
Definition user_entry (user : User) : JsValue * JsValue :=
  (user_key (_id user), document user).

(** The load of [runMemoryUsageBenchmarks], lines 199-201:
    [users.forEach(user => lruCache.set(`user:${user._id}`, user))]. *)
Definition load_users (users : list User) (lruCache : LRUCache) : LRUCache :=
  fold_left (fun c user => Bench.set c (user_key (_id user)) (document user))
    users lruCache.

(** The same load into the plain map, lines 191-193. *)
Definition load_users_memory (users : list User) (memoryCache : Map.t)
    : Map.t :=
  fold_left (fun m user => Map.set m (user_key (_id user)) (document user))
    users memoryCache.

(** ** The other snippets of the memory-management guide *)

(** *** [memoize], lines 72-81

    One module-level [cache] serves every memoized function.  The function
    [fn] is any code of the module: it runs on the cache itself (it may call
    a memoized function, as a recursive function does with its own wrapper)
    and on a state of type [S] for its other effects.  [cache.set] writes
    into the cache as [fn] left it. *)
Definition memoized {S : Type}
    (fn : JsValue -> Map.t * S -> JsValue * (Map.t * S))
    (cache : Map.t) (arg : JsValue) (s : S) : JsValue * Map.t * S :=
  if negb (Map.has cache arg) then
    let r := fn arg (cache, s) in
    let cache1 := Map.set (fst (snd r)) arg (fst r) in
    (Map.get cache1 arg, cache1, snd (snd r))
  else (Map.get cache arg, cache, s).

(** Calls of one memoized function in a row, oldest first. *)
Fixpoint memoized_calls {S : Type}
    (fn : JsValue -> Map.t * S -> JsValue * (Map.t * S))
    (cache : Map.t) (args : list JsValue) (s : S) : Map.t * S :=
  match args with
  | [] => (cache, s)
  | arg :: rest =>
      let r := memoized fn cache arg s in
      memoized_calls fn (snd (fst r)) rest (snd r)
  end.

(** A function that uses its own memoized wrapper, to try [memoized] on:
    [const fact = memoize(n => n <= 1 ? 1 : n * fact(n - 1))].  The fuel
    bounds the depth of the recursion; out of fuel, or on a value that is not
    a number, the result is [undefined]. *)
Fixpoint fact_fn (fuel : nat) (arg : JsValue) (st : Map.t * unit)
    : JsValue * (Map.t * unit) :=
  match arg, fuel with
  | JsNumber n, Datatypes.S fuel1 =>
      if n <=? 1 then (JsNumber 1, st)
      else
        let r := memoized (fact_fn fuel1) (fst st) (JsNumber (n - 1)) (snd st) in
        match fst (fst r) with
        | JsNumber m => (JsNumber (n * m), (snd (fst r), snd r))
        | _ => (JsUndefined, (snd (fst r), snd r))
        end
  | _, _ => (JsUndefined, st)
  end.

(** *** [ObjectPool], lines 146-162 *)

Module Pool.

(** [createFn] runs on the state [F] of whatever it allocates from. *)
Record ObjectPool (F : Type) : Type := mkObjectPool {
  createFn : F -> JsValue * F;
  maxSize : Z;
  pool : list JsValue
}.

Arguments mkObjectPool {F} _ _ _.
Arguments createFn {F} _ _.
Arguments maxSize {F} _.
Arguments pool {F} _.

Definition constructor {F : Type} (createFn : F -> JsValue * F) (maxSize : Z)
    : ObjectPool F :=
  {| createFn := createFn; maxSize := maxSize; pool := [] |}.

(** [Array.prototype.pop]: the last element leaves the array; on an empty
    array the result is [undefined]. *)
Definition pop (a : list JsValue) : JsValue * list JsValue :=
  match rev a with
  | [] => (JsUndefined, [])
  | x :: front => (x, rev front)
  end.

(** [acquire() { return this.pool.pop() || this.createFn(); }]: [||] yields
    its left operand when that is truthy and evaluates the right one
    otherwise. *)
Definition acquire {F : Type} (this : ObjectPool F) (world : F)
    : JsValue * ObjectPool F * F :=
  let popped := pop (pool this) in
  let this1 :=
    {| createFn := createFn this; maxSize := maxSize this;
       pool := snd popped |} in
  if truthy (fst popped) then (fst popped, this1, world)
  else
    let created := createFn this world in
    (fst created, this1, snd created).

(** [release(obj)] *)
Definition release {F : Type} (this : ObjectPool F) (obj : JsValue)
    : ObjectPool F :=
  if Z.of_nat (List.length (pool this)) <? maxSize this then
    {| createFn := createFn this; maxSize := maxSize this;
       pool := pool this ++ [obj] |}
  else this.

(** Calls on one pool. *)
Inductive call : Type :=
| Acquire
| Release (obj : JsValue).

Definition step {F : Type} (st : ObjectPool F * F) (c : call)
    : ObjectPool F * F :=
  match c with
  | Acquire => let r := acquire (fst st) (snd st) in (snd (fst r), snd r)
  | Release obj => (release (fst st) obj, snd st)
  end.

Definition run {F : Type} (st : ObjectPool F * F) (calls : list call)
    : ObjectPool F * F :=
  fold_left step calls st.

(** [n] calls of [acquire] in a row: the objects handed out, oldest first. *)
Fixpoint acquire_many {F : Type} (n : nat) (this : ObjectPool F) (world : F)
    : list JsValue * ObjectPool F * F :=
  match n with
  | O => ([], this, world)
  | S m =>
      let r := acquire this world in
      let rs := acquire_many m (snd (fst r)) (snd r) in
      (fst (fst r) :: fst (fst rs), snd (fst rs), snd rs)
  end.

Definition release_all {F : Type} (this : ObjectPool F) (objs : list JsValue)
    : ObjectPool F :=
  fold_left release objs this.

End Pool.

(** *** [getCachedData] on a [WeakMap], lines 168-175

    A [WeakMap] takes objects as keys: [has] and [get] answer [false] and
    [undefined] for any other value, and [set] throws a [TypeError] for it.
    Its entries cannot be enumerated and an entry can only go when its key is
    unreachable, so the entries a program can ask for are those of a map. *)
Definition is_object (v : JsValue) : bool :=
  match v with
  | JsObject _ => true
  | _ => false
  end.

Module WeakMap.

Definition has (m : Map.t) (key : JsValue) : bool :=
  is_object key && Map.has m key.

Definition get (m : Map.t) (key : JsValue) : JsValue :=
  if is_object key then Map.get m key else JsUndefined.

Definition set (m : Map.t) (key value : JsValue) : completion Map.t :=
  if is_object key then Normal (Map.set m key value)
  else Throw "TypeError".

End WeakMap.

(** [computeExpensiveData] is not defined in the guide: any function, with
    effects on a state [S].  Its call is an argument of [cache.set], so it has
    run when [set] throws. *)
Definition getCachedData {S : Type}
    (computeExpensiveData : JsValue -> S -> JsValue * S)
    (cache : Map.t) (obj : JsValue) (s : S)
    : completion JsValue * Map.t * S :=
  if negb (WeakMap.has cache obj) then
    let r := computeExpensiveData obj s in
    match WeakMap.set cache obj (fst r) with
    | Normal cache1 => (Normal (WeakMap.get cache1 obj), cache1, snd r)
    | Throw error => (Throw error, cache, snd r)
    end
  else (Normal (WeakMap.get cache obj), cache, s).

(** *** The growth monitor, lines 193-206

    One tick of the interval: the sample is pushed; with more than ten
    samples the growth from the first to the last is logged and the last ten
    are kept ([usage.slice(-10)]). *)
Definition slice_last {A : Type} (n : nat) (a : list A) : list A :=
  skipn (List.length a - n) a.

Definition monitor_tick (usage : list Z) (heapUsed : Z)
    : list Z * option Z :=
  let usage1 := usage ++ [heapUsed] in
  if (10 <? List.length usage1)%nat then
    let growth := last usage1 0 - hd 0 usage1 in
    (slice_last 10 usage1, Some growth)
  else (usage1, None).

(** The ticks for a list of samples, oldest first, with what was logged. *)
Fixpoint monitor (usage : list Z) (samples : list Z) : list Z * list Z :=
  match samples with
  | [] => (usage, [])
  | heapUsed :: rest =>
      let r := monitor_tick usage heapUsed in
      let rs := monitor (fst r) rest in
      (fst rs,
       match snd r with
       | Some growth => growth :: snd rs
       | None => snd rs
       end)
  end.

(** Each sample minus the sample taken ten ticks before it. *)
Definition growths (samples : list Z) : list Z :=
  List.map (fun p => snd p - fst p) (combine samples (skipn 10 samples)).

(** * Properties *)

(** ** Key comparison *)

Lemma same_value_zero_eq (x y : JsValue) : same_value_zero x y = true <-> x = y.
Proof.
  unfold same_value_zero. destruct (JsValue_eq_dec x y); split; congruence.
Qed.

Lemma same_value_zero_refl (x : JsValue) : same_value_zero x x = true.
Proof. now apply same_value_zero_eq. Qed.

Lemma same_value_zero_neq (x y : JsValue) : x <> y -> same_value_zero x y = false.
Proof.
  intros Hne. unfold same_value_zero. now destruct (JsValue_eq_dec x y).
Qed.

(** Decide every key comparison in sight. *)
Ltac cmp_keys :=
  repeat match goal with
  | |- context [same_value_zero ?x ?y] =>
      unfold same_value_zero at 1;
      destruct (JsValue_eq_dec x y); subst; simpl; try congruence
  | H : context [same_value_zero ?x ?y] |- _ =>
      unfold same_value_zero in H at 1;
      destruct (JsValue_eq_dec x y); subst; simpl in H; try congruence
  end.

(** ** The [Map] operations *)

Section MapFacts.

Implicit Types (m : Map.t) (k key value : JsValue).

Lemma get_absent m key : Map.has m key = false -> Map.get m key = JsUndefined.
Proof.
  induction m as [| [k v] rest IH]; simpl; intros H; [reflexivity|].
  cmp_keys. now apply IH.
Qed.

Lemma has_delete_same m key : Map.has (Map.delete m key) key = false.
Proof.
  induction m as [| [k v] rest IH]; simpl; [reflexivity|].
  cmp_keys; auto.
Qed.

Lemma has_delete_other m key k :
  key <> k -> Map.has (Map.delete m key) k = Map.has m k.
Proof.
  intros Hne. induction m as [| [k0 v] rest IH]; simpl; [reflexivity|].
  cmp_keys; auto.
Qed.

Lemma get_delete_other m key k :
  key <> k -> Map.get (Map.delete m key) k = Map.get m k.
Proof.
  intros Hne. induction m as [| [k0 v] rest IH]; simpl; [reflexivity|].
  cmp_keys; auto.
Qed.

Lemma delete_absent m key : Map.has m key = false -> Map.delete m key = m.
Proof.
  induction m as [| [k v] rest IH]; simpl; intros H; [reflexivity|].
  cmp_keys. f_equal. now apply IH.
Qed.

Lemma has_set_same m key value : Map.has (Map.set m key value) key = true.
Proof.
  induction m as [| [k v] rest IH]; simpl; cmp_keys; auto.
Qed.

Lemma get_set_same m key value : Map.get (Map.set m key value) key = value.
Proof.
  induction m as [| [k v] rest IH]; simpl; cmp_keys; auto.
Qed.

Lemma has_set_other m key value k :
  key <> k -> Map.has (Map.set m key value) k = Map.has m k.
Proof.
  intros Hne. induction m as [| [k0 v] rest IH]; simpl; cmp_keys; auto.
Qed.

Lemma get_set_other m key value k :
  key <> k -> Map.get (Map.set m key value) k = Map.get m k.
Proof.
  intros Hne. induction m as [| [k0 v] rest IH]; simpl; cmp_keys; auto.
Qed.

(** A new key goes to the end of the order. *)
Lemma set_absent m key value :
  Map.has m key = false -> Map.set m key value = m ++ [(key, value)].
Proof.
  induction m as [| [k v] rest IH]; simpl; intros H; [reflexivity|].
  cmp_keys. f_equal. now apply IH.
Qed.

(** A key that is there keeps its place. *)
Lemma keys_set_present m key value :
  Map.has m key = true -> Map.keys (Map.set m key value) = Map.keys m.
Proof.
  induction m as [| [k v] rest IH]; simpl; intros H; [discriminate|].
  cmp_keys. f_equal. now apply IH.
Qed.

Lemma last_key_snoc m key value : Map.last_key (m ++ [(key, value)]) = Some key.
Proof.
  unfold Map.last_key, Map.keys. now rewrite map_app, rev_app_distr.
Qed.

Lemma length_delete_le m key : (List.length (Map.delete m key) <= List.length m)%nat.
Proof.
  induction m as [| [k v] rest IH]; simpl; [lia|]. cmp_keys; simpl; lia.
Qed.

Lemma length_delete_present m key :
  Map.has m key = true -> (List.length (Map.delete m key) < List.length m)%nat.
Proof.
  induction m as [| [k v] rest IH]; simpl; intros H; [discriminate|].
  cmp_keys.
  - pose proof (length_delete_le rest key). lia.
  - specialize (IH H). lia.
Qed.

Lemma length_set_le m key value :
  (List.length (Map.set m key value) <= S (List.length m))%nat.
Proof.
  induction m as [| [k v] rest IH]; simpl; [lia|]. cmp_keys; simpl; lia.
Qed.

Lemma length_set_present m key value :
  Map.has m key = true -> List.length (Map.set m key value) = List.length m.
Proof.
  induction m as [| [k v] rest IH]; simpl; intros H; [discriminate|].
  cmp_keys. f_equal. now apply IH.
Qed.

Lemma has_first_key m : m <> [] -> Map.has m (Map.first_key m) = true.
Proof.
  destruct m as [| [k v] rest]; [congruence|]. intros _. simpl. cmp_keys.
Qed.

Lemma has_In_keys m key : Map.has m key = true <-> In key (Map.keys m).
Proof.
  induction m as [| [k v] rest IH]; simpl; [split; [discriminate | tauto]|].
  cmp_keys; [tauto|]. rewrite IH. split; [tauto|]. intros [H|H]; congruence.
Qed.

Lemma In_keys_delete m key k :
  In k (Map.keys (Map.delete m key)) -> In k (Map.keys m).
Proof.
  induction m as [| [k0 v] rest IH]; simpl; [tauto|].
  cmp_keys; simpl; tauto.
Qed.

(** The operations keep a [Map] a [Map]. *)
Lemma wf_delete m key : Map.wf m -> Map.wf (Map.delete m key).
Proof.
  unfold Map.wf.
  induction m as [| [k v] rest IH]; simpl; intros H; [assumption|].
  inversion H as [| ? ? Hnotin Hrest]; subst.
  cmp_keys; [now apply IH|].
  constructor; [|now apply IH].
  intros Hin. apply Hnotin. eapply In_keys_delete, Hin.
Qed.

Lemma wf_set m key value : Map.wf m -> Map.wf (Map.set m key value).
Proof.
  unfold Map.wf. intros H.
  destruct (Map.has m key) eqn:Hhas.
  - now rewrite keys_set_present.
  - rewrite set_absent by assumption.
    unfold Map.keys. rewrite map_app. simpl.
    apply NoDup_app; [assumption | repeat constructor; simpl; tauto |].
    intros k Hin [Heq | []]. subst k.
    apply has_In_keys in Hin. congruence.
Qed.

End MapFacts.

(** ** The methods of the class *)

Lemma set_methods_agree : Guide.set = Bench.set.
Proof. reflexivity. Qed.

Lemma size_nonneg (this : LRUCache) : 0 <= size this.
Proof. unfold size, Map.size. lia. Qed.

Section SetFacts.

Implicit Types (this : LRUCache) (k key value : JsValue).

Lemma set_maxSize this key value :
  maxSize (Bench.set this key value) = maxSize this.
Proof. reflexivity. Qed.

(** Below capacity, [set] is [Map.set] on the stored map. *)
Lemma set_below_capacity this key value :
  size this < maxSize this ->
  cache (Bench.set this key value) = Map.set (cache this) key value.
Proof.
  unfold Bench.set, size. intros H. simpl.
  destruct (Z.geb_spec (Map.size (cache this)) (maxSize this)); [lia|].
  reflexivity.
Qed.

(** At capacity, the oldest key is deleted first, whatever [key] is. *)
Lemma set_at_capacity this key value :
  maxSize this <= size this ->
  cache (Bench.set this key value) =
  Map.set (Map.delete (cache this) (Map.first_key (cache this))) key value.
Proof.
  unfold Bench.set, size. intros H. simpl.
  destruct (Z.geb_spec (Map.size (cache this)) (maxSize this)); [|lia].
  reflexivity.
Qed.

Lemma set_size_bound this key value :
  0 < maxSize this -> size this <= maxSize this ->
  size (Bench.set this key value) <= maxSize this.
Proof.
  intros Hpos Hle.
  destruct (Z_lt_le_dec (size this) (maxSize this)) as [Hlt | Hge].
  - unfold size. rewrite set_below_capacity by assumption.
    pose proof (length_set_le (cache this) key value).
    unfold size, Map.size in *. lia.
  - unfold size. rewrite set_at_capacity by assumption.
    assert (Hne : cache this <> []).
    { intros Heq. unfold size, Map.size in Hge. rewrite Heq in Hge.
      simpl in Hge. lia. }
    pose proof (length_delete_present _ _ (has_first_key _ Hne)).
    pose proof (length_set_le
      (Map.delete (cache this) (Map.first_key (cache this))) key value).
    unfold size, Map.size in *. lia.
Qed.

Lemma set_contains this key value :
  containsKey (Bench.set this key value) key = true.
Proof. unfold containsKey, Bench.set. simpl. apply has_set_same. Qed.

Lemma set_stores this key value :
  Map.get (cache (Bench.set this key value)) key = value.
Proof. unfold Bench.set. simpl. apply get_set_same. Qed.

(** What [set] leaves in the cache under another key was there before, with
    the same value. *)
Lemma set_other this key value k :
  key <> k ->
  containsKey (Bench.set this key value) k = true ->
  containsKey this k = true /\
  Map.get (cache (Bench.set this key value)) k = Map.get (cache this) k.
Proof.
  unfold containsKey, Bench.set. simpl. intros Hne.
  rewrite has_set_other, get_set_other by assumption.
  destruct (Map.size (cache this) >=? maxSize this); [|tauto].
  destruct (JsValue_eq_dec (Map.first_key (cache this)) k) as [Heq | Hfk].
  - rewrite Heq, has_delete_same. discriminate.
  - rewrite has_delete_other, get_delete_other by assumption. tauto.
Qed.

Lemma set_wf this key value :
  Map.wf (cache this) -> Map.wf (cache (Bench.set this key value)).
Proof.
  unfold Bench.set. simpl. intros H. apply wf_set.
  destruct (Map.size (cache this) >=? maxSize this);
    [now apply wf_delete | assumption].
Qed.

End SetFacts.

Section GetFacts.

Implicit Types (this : LRUCache) (k key value : JsValue).

Lemma refresh_moves_to_end m key :
  refresh m key = Map.delete m key ++ [(key, Map.get m key)].
Proof. unfold refresh. apply set_absent, has_delete_same. Qed.

Lemma refresh_length m key :
  Map.has m key = true -> (List.length (refresh m key) <= List.length m)%nat.
Proof.
  intros H. rewrite refresh_moves_to_end, length_app. simpl.
  pose proof (length_delete_present _ _ H). lia.
Qed.

Lemma refresh_has m key k :
  Map.has m key = true -> Map.has (refresh m key) k = Map.has m k.
Proof.
  intros H. unfold refresh.
  destruct (JsValue_eq_dec key k) as [<- | Hne].
  - now rewrite has_set_same.
  - now rewrite has_set_other, has_delete_other.
Qed.

Lemma refresh_get m key k : Map.get (refresh m key) k = Map.get m k.
Proof.
  unfold refresh.
  destruct (JsValue_eq_dec key k) as [<- | Hne].
  - now rewrite get_set_same.
  - now rewrite get_set_other, get_delete_other.
Qed.

Lemma truthy_get_has m key :
  truthy (Map.get m key) = true -> Map.has m key = true.
Proof.
  intros H. destruct (Map.has m key) eqn:Hhas; [reflexivity|].
  rewrite (get_absent _ _ Hhas) in H. discriminate.
Qed.

(** The two [get] methods, case by case. *)
Lemma bench_get_miss this key :
  containsKey this key = false -> Bench.get this key = (JsNull, this).
Proof. unfold containsKey, Bench.get. now intros ->. Qed.

Lemma bench_get_hit this key :
  containsKey this key = true ->
  Bench.get this key =
  (Map.get (cache this) key,
   {| maxSize := maxSize this; cache := refresh (cache this) key |}).
Proof. unfold containsKey, Bench.get. now intros ->. Qed.

Lemma guide_get_falsy this key :
  truthy (Map.get (cache this) key) = false ->
  Guide.get this key = (Map.get (cache this) key, this).
Proof. unfold Guide.get. now intros ->. Qed.

Lemma guide_get_truthy this key :
  truthy (Map.get (cache this) key) = true ->
  Guide.get this key =
  (Map.get (cache this) key,
   {| maxSize := maxSize this; cache := refresh (cache this) key |}).
Proof. unfold Guide.get. now intros ->. Qed.

Lemma guide_get_result this key :
  fst (Guide.get this key) = Map.get (cache this) key.
Proof.
  unfold Guide.get. now destruct (truthy (Map.get (cache this) key)).
Qed.

End GetFacts.

(** ** Histories

    What the histories need from a variant of the class, stated once. *)

Section HistoryFacts.

Variable get : LRUCache -> JsValue -> JsValue * LRUCache.
Variable set : LRUCache -> JsValue -> JsValue -> LRUCache.

Hypothesis get_maxSize :
  forall this key, maxSize (snd (get this key)) = maxSize this.
Hypothesis get_size :
  forall this key, size (snd (get this key)) <= size this.
Hypothesis get_keeps_has :
  forall this key k,
    containsKey (snd (get this key)) k = containsKey this k.
Hypothesis get_keeps_get :
  forall this key k,
    Map.get (cache (snd (get this key))) k = Map.get (cache this) k.
Hypothesis set_is : set = Bench.set.

Lemma step_maxSize this o : maxSize (step get set this o) = maxSize this.
Proof. destruct o; simpl; [apply get_maxSize | now rewrite set_is]. Qed.

Lemma run_cons this o ops :
  run get set this (o :: ops) = run get set (step get set this o) ops.
Proof. reflexivity. Qed.

Lemma run_maxSize this ops : maxSize (run get set this ops) = maxSize this.
Proof.
  revert this. induction ops as [| o ops IH]; intros this; [reflexivity|].
  now rewrite run_cons, IH, step_maxSize.
Qed.

Lemma step_size_bound this o :
  0 < maxSize this -> size this <= maxSize this ->
  size (step get set this o) <= maxSize this.
Proof.
  intros Hpos Hle. destruct o as [key | key value]; simpl.
  - pose proof (get_size this key). lia.
  - rewrite set_is. now apply set_size_bound.
Qed.

Lemma run_size_bound this ops :
  0 < maxSize this -> size this <= maxSize this ->
  size (run get set this ops) <= maxSize this.
Proof.
  revert this. induction ops as [| o ops IH]; intros this Hpos Hle;
    [assumption|].
  rewrite run_cons, <- (step_maxSize this o).
  apply IH; rewrite step_maxSize; [assumption|].
  now apply step_size_bound.
Qed.

Lemma last_set_snoc ops o key :
  last_set (ops ++ [o]) key =
  match o with
  | OpSet k v => if same_value_zero k key then Some v else last_set ops key
  | OpGet _ => last_set ops key
  end.
Proof.
  induction ops as [| o' ops IH]; simpl.
  - destruct o as [k | k v]; [reflexivity|].
    now destruct (same_value_zero k key).
  - rewrite IH. destruct o as [k | k v]; [reflexivity|].
    now destruct (same_value_zero k key).
Qed.

Lemma run_snoc this ops o :
  run get set this (ops ++ [o]) = step get set (run get set this ops) o.
Proof. unfold run. now rewrite fold_left_app. Qed.

(** A key that was set during the history and is in the cache at its end
    is stored with the value of its most recent [set]. *)
Lemma run_stores_last_set this ops key value :
  last_set ops key = Some value ->
  containsKey (run get set this ops) key = true ->
  Map.get (cache (run get set this ops)) key = value.
Proof.
  revert value. induction ops as [| o ops IH] using rev_ind;
    intros value Hlast Hhas; [discriminate|].
  rewrite run_snoc in *. rewrite last_set_snoc in Hlast.
  destruct o as [k | k v]; simpl in *.
  - rewrite get_keeps_get. rewrite get_keeps_has in Hhas. now apply IH.
  - rewrite set_is in *.
    destruct (JsValue_eq_dec k key) as [-> | Hne].
    + rewrite same_value_zero_refl in Hlast. injection Hlast as <-.
      apply set_stores.
    + rewrite same_value_zero_neq in Hlast by assumption.
      destruct (set_other _ _ _ _ Hne Hhas) as [Hbefore ->].
      now apply IH.
Qed.

(** An entry leaves the cache in one way only: a [set] of another key finds
    the cache full and the entry is the oldest one. *)
Lemma step_removes_by_eviction this o k :
  containsKey this k = true ->
  containsKey (step get set this o) k = false ->
  exists key value,
    o = OpSet key value /\ key <> k /\
    maxSize this <= size this /\ Map.first_key (cache this) = k.
Proof.
  intros Hin Hout. destruct o as [key | key value]; simpl in Hout.
  - rewrite get_keeps_has in Hout. congruence.
  - rewrite set_is in Hout. exists key, value.
    destruct (JsValue_eq_dec key k) as [-> | Hne].
    + rewrite set_contains in Hout. discriminate.
    + unfold containsKey, Bench.set, size in *. simpl in Hout.
      rewrite has_set_other in Hout by assumption.
      destruct (Z.geb_spec (Map.size (cache this)) (maxSize this)) as [Hge | Hlt];
        [|congruence].
      destruct (JsValue_eq_dec (Map.first_key (cache this)) k) as [Hfirst | Hfirst].
      * repeat split; assumption.
      * rewrite has_delete_other in Hout by assumption. congruence.
Qed.

(** The histories never leave the lists that are [Map]s. *)
Hypothesis get_wf :
  forall this key, Map.wf (cache this) -> Map.wf (cache (snd (get this key))).

Lemma run_wf this ops :
  Map.wf (cache this) -> Map.wf (cache (run get set this ops)).
Proof.
  revert this. induction ops as [| o ops IH]; intros this Hwf; [assumption|].
  rewrite run_cons. apply IH.
  destruct o as [key | key value]; simpl.
  - now apply get_wf.
  - rewrite set_is. now apply set_wf.
Qed.

End HistoryFacts.

(** Both [get] methods meet the requirements of the section above. *)

Lemma bench_get_cases (this : LRUCache) (key : JsValue) :
  snd (Bench.get this key) = this \/
  containsKey this key = true /\
  snd (Bench.get this key) =
  {| maxSize := maxSize this; cache := refresh (cache this) key |}.
Proof.
  destruct (containsKey this key) eqn:H.
  - right. now rewrite bench_get_hit.
  - left. now rewrite bench_get_miss.
Qed.

Lemma guide_get_cases (this : LRUCache) (key : JsValue) :
  snd (Guide.get this key) = this \/
  containsKey this key = true /\
  snd (Guide.get this key) =
  {| maxSize := maxSize this; cache := refresh (cache this) key |}.
Proof.
  destruct (truthy (Map.get (cache this) key)) eqn:H.
  - right. rewrite guide_get_truthy by assumption.
    split; [now apply truthy_get_has | reflexivity].
  - left. now rewrite guide_get_falsy.
Qed.

Ltac by_get_cases cases this key :=
  destruct (cases this key) as [-> | [Hpresent ->]]; [reflexivity | simpl].

Lemma bench_get_maxSize this key : maxSize (snd (Bench.get this key)) = maxSize this.
Proof. by_get_cases bench_get_cases this key. reflexivity. Qed.

Lemma guide_get_maxSize this key : maxSize (snd (Guide.get this key)) = maxSize this.
Proof. by_get_cases guide_get_cases this key. reflexivity. Qed.

Lemma bench_get_keeps_has this key k :
  containsKey (snd (Bench.get this key)) k = containsKey this k.
Proof.
  by_get_cases bench_get_cases this key.
  unfold containsKey. simpl. now apply refresh_has.
Qed.

Lemma guide_get_keeps_has this key k :
  containsKey (snd (Guide.get this key)) k = containsKey this k.
Proof.
  by_get_cases guide_get_cases this key.
  unfold containsKey. simpl. now apply refresh_has.
Qed.

Lemma bench_get_keeps_get this key k :
  Map.get (cache (snd (Bench.get this key))) k = Map.get (cache this) k.
Proof. by_get_cases bench_get_cases this key. apply refresh_get. Qed.

Lemma guide_get_keeps_get this key k :
  Map.get (cache (snd (Guide.get this key))) k = Map.get (cache this) k.
Proof. by_get_cases guide_get_cases this key. apply refresh_get. Qed.

Lemma bench_get_size this key : size (snd (Bench.get this key)) <= size this.
Proof.
  destruct (bench_get_cases this key) as [-> | [Hpresent ->]]; [lia|].
  pose proof (refresh_length _ _ Hpresent).
  unfold size, Map.size. simpl. lia.
Qed.

Lemma guide_get_size this key : size (snd (Guide.get this key)) <= size this.
Proof.
  destruct (guide_get_cases this key) as [-> | [Hpresent ->]]; [lia|].
  pose proof (refresh_length _ _ Hpresent).
  unfold size, Map.size. simpl. lia.
Qed.

Lemma refresh_wf (m : Map.t) (key : JsValue) : Map.wf m -> Map.wf (refresh m key).
Proof. intros H. unfold refresh. now apply wf_set, wf_delete. Qed.

Lemma bench_get_wf this key :
  Map.wf (cache this) -> Map.wf (cache (snd (Bench.get this key))).
Proof.
  intros H. destruct (bench_get_cases this key) as [-> | [_ ->]];
    [assumption | now apply refresh_wf].
Qed.

Lemma guide_get_wf this key :
  Map.wf (cache this) -> Map.wf (cache (snd (Guide.get this key))).
Proof.
  intros H. destruct (guide_get_cases this key) as [-> | [_ ->]];
    [assumption | now apply refresh_wf].
Qed.

(** Every cache reached from a constructed one holds each key once. *)
Lemma reachable_wf (capacity : Z) (ops : list op) :
  Map.wf (cache (run Bench.get Bench.set (Bench.constructor capacity) ops)) /\
  Map.wf (cache (run Guide.get Guide.set (Guide.constructor capacity) ops)).
Proof.
  split.
  - apply (@run_wf Bench.get Bench.set eq_refl bench_get_wf). constructor.
  - apply (@run_wf Guide.get Guide.set set_methods_agree guide_get_wf).
    constructor.
Qed.

(** In both variants, a key that was in the cache before a call and is not in
    it after was evicted: the call is a [set] of another key on a full cache
    and the key was the oldest. *)
Lemma entries_leave_by_eviction_only (this : LRUCache) (o : op) (k : JsValue) :
  containsKey this k = true ->
  (containsKey (step Bench.get Bench.set this o) k = false \/
   containsKey (step Guide.get Guide.set this o) k = false) ->
  exists key value,
    o = OpSet key value /\ key <> k /\
    maxSize this <= size this /\ Map.first_key (cache this) = k.
Proof.
  intros Hin [Hout | Hout].
  - exact (@step_removes_by_eviction Bench.get Bench.set
             bench_get_keeps_has eq_refl this o k Hin Hout).
  - exact (@step_removes_by_eviction Guide.get Guide.set
             guide_get_keeps_has set_methods_agree this o k Hin Hout).
Qed.

(** The bound holds along every history of calls, reads included. *)
Lemma capacity_bound_any_history (capacity : Z) (ops : list op) :
  0 < capacity ->
  size (run Bench.get Bench.set (Bench.constructor capacity) ops) <= capacity /\
  size (run Guide.get Guide.set (Guide.constructor capacity) ops) <= capacity.
Proof.
  intros Hpos. split.
  - apply (@run_size_bound Bench.get Bench.set
             bench_get_maxSize bench_get_size eq_refl
             (Bench.constructor capacity) ops);
      [assumption | unfold size, Map.size; simpl; lia].
  - apply (@run_size_bound Guide.get Guide.set
             guide_get_maxSize guide_get_size set_methods_agree
             (Guide.constructor capacity) ops);
      [assumption | unfold size, Map.size; simpl; lia].
Qed.

(** ** The claims *)

(** C1 (capacity invariant).  For every capacity above zero and every
    sequence of [set] calls on a cache constructed with that capacity, the
    number of entries after each call (after the first [i] calls, for every
    [i]) is at most the capacity.  This holds for both variants of the class,
    and whether or not the keys are distinct. *)
Theorem capacity_invariant
    (capacity : Z) (kvs : list (JsValue * JsValue)) (i : nat) :
  0 < capacity ->
  size (run Bench.get Bench.set (Bench.constructor capacity)
          (sets (firstn i kvs))) <= capacity /\
  size (run Guide.get Guide.set (Guide.constructor capacity)
          (sets (firstn i kvs))) <= capacity.
Proof. intros Hpos. now apply capacity_bound_any_history. Qed.

Lemma capacity_invariant_witness :
  0 < 2 /\
  size (run Bench.get Bench.set (Bench.constructor 2)
          (sets (firstn 3 [(JsString "a", JsNumber 1);
                           (JsString "b", JsNumber 2);
                           (JsString "c", JsNumber 3)]))) <= 2.
Proof.
  split; [lia|].
  apply (capacity_invariant 2
           [(JsString "a", JsNumber 1); (JsString "b", JsNumber 2);
            (JsString "c", JsNumber 3)] 3).
  lia.
Defined.

(** What is in the cache is never stale: after any history of calls, on
    either variant and from any starting state, a key that is in the cache is
    read back by [get] with the value passed to the most recent [set] of that
    key.  (Whether the key is still in the cache is another matter, see the
    round trip below.) *)
Lemma stored_value_is_last_set
    (this : LRUCache) (ops : list op) (key value : JsValue) :
  last_set ops key = Some value ->
  (containsKey (run Bench.get Bench.set this ops) key = true ->
   fst (Bench.get (run Bench.get Bench.set this ops) key) = value) /\
  (containsKey (run Guide.get Guide.set this ops) key = true ->
   fst (Guide.get (run Guide.get Guide.set this ops) key) = value).
Proof.
  intros Hlast. split; intros Hhas.
  - rewrite bench_get_hit by assumption. simpl.
    now apply (@run_stores_last_set Bench.get Bench.set
                 bench_get_keeps_has bench_get_keeps_get eq_refl).
  - rewrite guide_get_result.
    now apply (@run_stores_last_set Guide.get Guide.set
                 guide_get_keeps_has guide_get_keeps_get set_methods_agree).
Qed.

Lemma stored_value_is_last_set_witness :
  let ops := [OpSet (JsString "a") (JsNumber 1);
              OpSet (JsString "b") (JsNumber 2);
              OpGet (JsString "a");
              OpSet (JsString "c") (JsNumber 3);
              OpSet (JsString "a") (JsNumber 5)] in
  last_set ops (JsString "a") = Some (JsNumber 5) /\
  containsKey (run Bench.get Bench.set (Bench.constructor 2) ops)
    (JsString "a") = true /\
  fst (Bench.get (run Bench.get Bench.set (Bench.constructor 2) ops)
         (JsString "a")) = JsNumber 5.
Proof.
  intros ops. split; [reflexivity|]. split; [reflexivity|].
  apply (stored_value_is_last_set (Bench.constructor 2) ops (JsString "a")
           (JsNumber 5) eq_refl).
  reflexivity.
Defined.

(** The round trip the code does give: a key is read back with the value
    of its last [set] as long as no later call evicts it, in the sense of what
    [set] does. *)

Section RoundTrip.

Variable get : LRUCache -> JsValue -> JsValue * LRUCache.
Variable set : LRUCache -> JsValue -> JsValue -> LRUCache.

Hypothesis get_keeps_has :
  forall this key k,
    containsKey (snd (get this key)) k = containsKey this k.
Hypothesis get_keeps_get :
  forall this key k,
    Map.get (cache (snd (get this key))) k = Map.get (cache this) k.
Hypothesis set_is : set = Bench.set.

Lemma kept_unless_evicted (key value : JsValue) (after : list op) :
  forall this : LRUCache,
  containsKey this key = true ->
  Map.get (cache this) key = value ->
  forallb (fun o => negb (sets_key key o)) after = true ->
  evicted_along get set this after key = false ->
  containsKey (run get set this after) key = true /\
  Map.get (cache (run get set this after)) key = value.
Proof.
  induction after as [| o rest IH]; intros this Hin Hval Hother Hkept;
    [now split|].
  simpl in Hother, Hkept.
  apply andb_true_iff in Hother. destruct Hother as [Ho Hother].
  apply orb_false_iff in Hkept. destruct Hkept as [Hevict Hkept].
  rewrite run_cons.
  assert (Hstep : containsKey (step get set this o) key = true).
  { destruct (containsKey (step get set this o) key) eqn:Hout; [reflexivity|].
    destruct (@step_removes_by_eviction get set get_keeps_has set_is
                this o key Hin Hout)
      as [k' [v' [-> [Hne [Hfull Hfirst]]]]].
    unfold evicts in Hevict.
    rewrite (same_value_zero_neq _ _ Hne), Hfirst, same_value_zero_refl in Hevict.
    destruct (Z.geb_spec (size this) (maxSize this)); [discriminate | lia]. }
  apply IH; try assumption.
  destruct o as [k' | k' v']; simpl in *.
  - now rewrite get_keeps_get.
  - rewrite set_is in *.
    assert (Hne : k' <> key).
    { intros ->. rewrite same_value_zero_refl in Ho. discriminate. }
    destruct (set_other this k' v' key Hne Hstep) as [_ ->]. assumption.
Qed.

Lemma run_app (this : LRUCache) (ops1 ops2 : list op) :
  run get set this (ops1 ++ ops2) = run get set (run get set this ops1) ops2.
Proof. unfold run. apply fold_left_app. Qed.

End RoundTrip.

Lemma round_trip_unless_evicted
    (this : LRUCache) (before after : list op) (key value : JsValue) :
  forallb (fun o => negb (sets_key key o)) after = true ->
  (evicted_along Bench.get Bench.set
     (Bench.set (run Bench.get Bench.set this before) key value) after key
   = false ->
   fst (Bench.get (run Bench.get Bench.set this
                     (before ++ OpSet key value :: after)) key) = value) /\
  (evicted_along Guide.get Guide.set
     (Guide.set (run Guide.get Guide.set this before) key value) after key
   = false ->
   fst (Guide.get (run Guide.get Guide.set this
                     (before ++ OpSet key value :: after)) key) = value).
Proof.
  intros Hother. split; intros Hkept; rewrite run_app, run_cons.
  - destruct (@kept_unless_evicted Bench.get Bench.set
                bench_get_keeps_has bench_get_keeps_get eq_refl key value after
                (Bench.set (run Bench.get Bench.set this before) key value))
      as [Hin Hval]; try assumption;
      [apply set_contains | apply set_stores |].
    simpl step. rewrite bench_get_hit by assumption. assumption.
  - destruct (@kept_unless_evicted Guide.get Guide.set
                guide_get_keeps_has guide_get_keeps_get set_methods_agree
                key value after
                (Guide.set (run Guide.get Guide.set this before) key value))
      as [Hin Hval]; try assumption;
      [apply set_contains | apply set_stores |].
    simpl step. rewrite guide_get_result. assumption.
Qed.


(** C9 (a miss has no side effect).  For every cache state and every key that
    is not in the cache, [get] returns the absent value of its variant
    ([null], respectively [undefined]) and the cache it leaves is the cache
    it found: entries, order and capacity. *)
Theorem miss_is_side_effect_free (this : LRUCache) (key : JsValue) :
  containsKey this key = false ->
  Bench.get this key = (Bench.absent, this) /\
  Guide.get this key = (Guide.absent, this).
Proof.
  intros Hmiss. split.
  - now apply bench_get_miss.
  - unfold containsKey in Hmiss.
    rewrite guide_get_falsy; rewrite (get_absent _ _ Hmiss); reflexivity.
Qed.

Lemma miss_is_side_effect_free_witness :
  containsKey (Bench.constructor 3) (JsString "x") = false /\
  Bench.get (Bench.constructor 3) (JsString "x") =
    (Bench.absent, Bench.constructor 3) /\
  Guide.get (Guide.constructor 3) (JsString "x") =
    (Guide.absent, Guide.constructor 3).
Proof.
  split; [reflexivity|].
  apply (miss_is_side_effect_free (Bench.constructor 3) (JsString "x")).
  reflexivity.
Defined.

(** Reading a key right after setting it. *)
Lemma bench_get_after_set (this : LRUCache) (key value : JsValue) :
  fst (Bench.get (Bench.set this key value) key) = value /\
  containsKey (snd (Bench.get (Bench.set this key value) key)) key = true.
Proof.
  rewrite bench_get_keeps_has, set_contains.
  rewrite bench_get_hit by apply set_contains. simpl.
  split; [apply set_stores | reflexivity].
Qed.

Lemma guide_get_after_set (this : LRUCache) (key value : JsValue) :
  fst (Guide.get (Guide.set this key value) key) = value /\
  containsKey (snd (Guide.get (Guide.set this key value) key)) key = true.
Proof.
  rewrite guide_get_keeps_has, guide_get_result, set_methods_agree.
  split; [apply set_stores | apply set_contains].
Qed.

(** C2 (LRU eviction order).  With capacity 2 and three distinct keys, the
    calls [set(a,1)], [set(b,2)], [get(a)], [set(c,3)] leave exactly [a] with
    value 1 and [c] with value 3 in the cache, in that order of recency: [b],
    the least recently used key, is the one evicted.  Both variants agree. *)
Theorem lru_eviction_order (a b c : JsValue) :
  a <> b -> a <> c -> b <> c ->
  let bench :=
    eviction_scenario Bench.get Bench.set (Bench.constructor 2) a b c in
  let guide :=
    eviction_scenario Guide.get Guide.set (Guide.constructor 2) a b c in
  (cache bench = [(a, JsNumber 1); (c, JsNumber 3)] /\
   containsKey bench a = true /\ containsKey bench c = true /\
   containsKey bench b = false /\
   fst (Bench.get bench a) = JsNumber 1 /\
   fst (Bench.get bench c) = JsNumber 3) /\
  (cache guide = [(a, JsNumber 1); (c, JsNumber 3)] /\
   containsKey guide a = true /\ containsKey guide c = true /\
   containsKey guide b = false /\
   fst (Guide.get guide a) = JsNumber 1 /\
   fst (Guide.get guide c) = JsNumber 3).
Proof.
  intros Hab Hac Hbc bench guide.
  assert (HB : cache bench = [(a, JsNumber 1); (c, JsNumber 3)]).
  { subst bench. unfold eviction_scenario, Bench.set, Bench.get.
    simpl; cmp_keys; simpl; cmp_keys; reflexivity. }
  assert (HG : cache guide = [(a, JsNumber 1); (c, JsNumber 3)]).
  { subst guide. unfold eviction_scenario, Guide.set, Guide.get.
    simpl; cmp_keys; simpl; cmp_keys; reflexivity. }
  split.
  - unfold containsKey, Bench.get. rewrite HB. simpl; cmp_keys.
    all: repeat split; simpl; cmp_keys; reflexivity.
  - unfold containsKey, Guide.get. rewrite HG. simpl; cmp_keys.
    all: repeat split; simpl; cmp_keys; reflexivity.
Qed.

Lemma lru_eviction_order_witness :
  JsString "a" <> JsString "b" /\
  JsString "a" <> JsString "c" /\
  JsString "b" <> JsString "c" /\
  cache (eviction_scenario Bench.get Bench.set (Bench.constructor 2)
           (JsString "a") (JsString "b") (JsString "c")) =
  [(JsString "a", JsNumber 1); (JsString "c", JsNumber 3)].
Proof.
  assert (Hab : JsString "a" <> JsString "b") by discriminate.
  assert (Hac : JsString "a" <> JsString "c") by discriminate.
  assert (Hbc : JsString "b" <> JsString "c") by discriminate.
  repeat (split; [assumption|]).
  exact (proj1 (proj1
    (lru_eviction_order (JsString "a") (JsString "b") (JsString "c")
       Hab Hac Hbc))).
Defined.

(** C7 (first in, first out among equally recent entries).  With capacity 1
    and two distinct keys, [set(a,1)] followed directly by [set(b,2)] evicts
    [a], the key inserted first: afterwards [get(a)] returns the absent value
    of the variant and [get(b)] returns 2. *)
Theorem fifo_tie_break (a b : JsValue) :
  a <> b ->
  let bench := tie_scenario Bench.set (Bench.constructor 1) a b in
  let guide := tie_scenario Guide.set (Guide.constructor 1) a b in
  (cache bench = [(b, JsNumber 2)] /\
   fst (Bench.get bench a) = Bench.absent /\
   fst (Bench.get bench b) = JsNumber 2) /\
  (cache guide = [(b, JsNumber 2)] /\
   fst (Guide.get guide a) = Guide.absent /\
   fst (Guide.get guide b) = JsNumber 2).
Proof.
  intros Hab bench guide.
  assert (HB : cache bench = [(b, JsNumber 2)]).
  { subst bench. unfold tie_scenario, Bench.set. simpl; cmp_keys; reflexivity. }
  assert (HG : cache guide = [(b, JsNumber 2)]).
  { subst guide. unfold tie_scenario, Guide.set. simpl; cmp_keys; reflexivity. }
  split.
  - unfold Bench.get. rewrite HB.
    repeat split; simpl; cmp_keys; reflexivity.
  - unfold Guide.get. rewrite HG.
    repeat split; simpl; cmp_keys; reflexivity.
Qed.

Lemma fifo_tie_break_witness :
  JsString "a" <> JsString "b" /\
  fst (Bench.get (tie_scenario Bench.set (Bench.constructor 1)
                    (JsString "a") (JsString "b")) (JsString "a")) = JsNull /\
  fst (Guide.get (tie_scenario Guide.set (Guide.constructor 1)
                    (JsString "a") (JsString "b")) (JsString "a")) =
  JsUndefined.
Proof.
  assert (Hab : JsString "a" <> JsString "b") by discriminate.
  split; [assumption|].
  pose proof (fifo_tie_break (JsString "a") (JsString "b") Hab) as H.
  split; [exact (proj1 (proj2 (proj1 H))) | exact (proj1 (proj2 (proj2 H)))].
Defined.

(** C6 (construction).  The claim is that a capacity of zero or less makes
    the construction fail.  The constructor only stores its argument and
    creates the map: [new LRUCache(maxSize)] completes normally for every
    [maxSize], positive or not, with an empty cache of that [maxSize]. *)
Theorem construction_always_succeeds (maxSize : Z) :
  Bench.new_LRUCache maxSize =
    Normal {| maxSize := maxSize; cache := Map.empty |} /\
  Guide.new_LRUCache maxSize =
    Normal {| maxSize := maxSize; cache := Map.empty |}.
Proof. split; reflexivity. Qed.

(** C6 as stated fails at the capacities 0 and -3: no error of any name is
    thrown there, in either variant. *)
Lemma construction_nonpositive_counterexample :
  (0 <= 0 /\ -3 <= 0) /\
  (forall error, Bench.new_LRUCache 0 <> Throw error) /\
  (forall error, Guide.new_LRUCache 0 <> Throw error) /\
  (forall error, Bench.new_LRUCache (-3) <> Throw error) /\
  (forall error, Guide.new_LRUCache (-3) <> Throw error).
Proof. split; [lia|]. repeat split; discriminate. Qed.

(** ** Overwriting a key

    What [set] does to a key that is already in the cache depends on whether
    the cache is full. *)

(** Below capacity: the value is replaced in place, nothing is evicted and
    the size stays. *)
Lemma overwrite_below_capacity (this : LRUCache) (key value : JsValue) :
  containsKey this key = true -> size this < maxSize this ->
  Map.keys (cache (Bench.set this key value)) = Map.keys (cache this) /\
  size (Bench.set this key value) = size this /\
  fst (Bench.get (Bench.set this key value) key) = value.
Proof.
  intros Hhas Hlt. unfold size.
  rewrite set_below_capacity by assumption.
  split; [now apply keys_set_present|].
  split; [|apply bench_get_after_set].
  unfold Map.size. now rewrite length_set_present.
Qed.

(** A key that is not in the cache is put at the most-recently-used end. *)
Lemma set_new_most_recent (this : LRUCache) (key value : JsValue) :
  containsKey this key = false ->
  mostRecent (Bench.set this key value) = Some key.
Proof.
  unfold containsKey, mostRecent, Bench.set. simpl. intros Hmiss.
  rewrite set_absent; [apply last_key_snoc|].
  destruct (Map.size (cache this) >=? maxSize this); [|assumption].
  destruct (JsValue_eq_dec (Map.first_key (cache this)) key) as [-> | Hne].
  - apply has_delete_same.
  - now rewrite has_delete_other.
Qed.

(** A hit of the benchmark [get] puts the key at the most-recently-used
    end; so does a hit of the guide's [get] on a truthy value. *)
Lemma bench_hit_most_recent (this : LRUCache) (key : JsValue) :
  containsKey this key = true ->
  mostRecent (snd (Bench.get this key)) = Some key.
Proof.
  intros Hhas. rewrite bench_get_hit by assumption.
  unfold mostRecent. simpl. rewrite refresh_moves_to_end. apply last_key_snoc.
Qed.

Lemma guide_truthy_hit_most_recent (this : LRUCache) (key : JsValue) :
  truthy (Map.get (cache this) key) = true ->
  mostRecent (snd (Guide.get this key)) = Some key.
Proof.
  intros Htruthy. rewrite guide_get_truthy by assumption.
  unfold mostRecent. simpl. rewrite refresh_moves_to_end. apply last_key_snoc.
Qed.

(** C3 (overwrite of an existing key), evaluated on a full cache.  With
    capacity 2 and the entries [a] and [b], [set(b, 9)] finds the cache full
    and deletes the oldest key [a] before it writes [b]: the value of [b] is
    replaced and read back, but [a] is evicted and the size drops from 2 to
    1.  The two variants behave alike. *)
Theorem overwrite_at_capacity_evicts :
  let a := JsString "a" in
  let b := JsString "b" in
  let full := tie_scenario Bench.set (Bench.constructor 2) a b in
  let after := Bench.set full b (JsNumber 9) in
  (cache full = [(a, JsNumber 1); (b, JsNumber 2)] /\
   size full = 2 /\ maxSize full = 2 /\ containsKey full b = true) /\
  (cache after = [(b, JsNumber 9)] /\
   fst (Bench.get after b) = JsNumber 9 /\
   containsKey after a = false /\
   size after = 1) /\
  Guide.set (tie_scenario Guide.set (Guide.constructor 2) a b) b (JsNumber 9)
  = after.
Proof. repeat split. Qed.

(** C4 (recency), evaluated where it fails.  (1) With capacity 3 and the
    entries [a], [b], [set(a, 9)] replaces the value of [a] in place: [a]
    stays at the least-recently-used end and [b] at the most-recently-used
    end, so the next eviction would take [a].  (2) In the guide's variant, a
    [get] of a present key whose value is falsy (here 0) refreshes nothing:
    [a] stays at the least-recently-used end. *)
Theorem overwrite_keeps_position :
  let a := JsString "a" in
  let b := JsString "b" in
  let two := tie_scenario Bench.set (Bench.constructor 3) a b in
  let zero :=
    Guide.set (Guide.set (Guide.constructor 3) a (JsNumber 0)) b (JsNumber 2) in
  (Map.keys (cache two) = [a; b] /\
   Map.keys (cache (Bench.set two a (JsNumber 9))) = [a; b] /\
   mostRecent (Bench.set two a (JsNumber 9)) = Some b /\
   Guide.set two a (JsNumber 9) = Bench.set two a (JsNumber 9)) /\
  (containsKey zero a = true /\
   Guide.get zero a = (JsNumber 0, zero) /\
   Map.keys (cache (snd (Guide.get zero a))) = [a; b] /\
   mostRecent (snd (Guide.get zero a)) = Some b).
Proof. repeat split. Qed.

(** The first component of what a miss returns. *)
Lemma miss_like_absent (this : LRUCache) (key : JsValue) :
  containsKey this key = false ->
  fst (Bench.get this key) = JsNull /\ fst (Guide.get this key) = JsUndefined.
Proof.
  intros Hmiss. rewrite bench_get_miss by assumption.
  rewrite guide_get_result. unfold containsKey in Hmiss.
  now rewrite (get_absent _ _ Hmiss).
Qed.

(** ** Time *)

(** C5 (expiry), as the code has it.  The class has no time-to-live: [set]
    has the two parameters [key] and [value], so a third argument is dropped,
    and no method reads the clock.  Whatever [ttl] is passed and however much
    time [d] passes after the [set], the cache is the one a plain
    [set(key, value)] leaves, [get(key)] returns the stored value, and the key
    is still contained after that lookup.  Both variants. *)
Theorem entries_never_expire (w : World) (key value ttl : JsValue) (d : Z) :
  let bench := elapse d (call_set Bench.set w [key; value; ttl]) in
  let guide := elapse d (call_set Guide.set w [key; value; ttl]) in
  (lru bench = Bench.set (lru w) key value /\
   fst (call_get Bench.get bench [key]) = value /\
   containsKey (lru (snd (call_get Bench.get bench [key]))) key = true) /\
  (lru guide = Guide.set (lru w) key value /\
   fst (call_get Guide.get guide [key]) = value /\
   containsKey (lru (snd (call_get Guide.get guide [key]))) key = true).
Proof.
  intros bench guide. subst bench guide.
  unfold call_get, call_set, elapse, argument. simpl.
  split; (split; [reflexivity|]).
  - apply bench_get_after_set.
  - apply guide_get_after_set.
Qed.

(** C5 as stated fails: [set("k", "v", 1)] at time 0, then 5 units of time,
    then [get("k")]: the time is past the expiry (0 + 1), yet the lookup
    returns ["v"], not the absent value, and ["k"] is still contained. *)
Lemma ttl_expiry_counterexample :
  let k := JsString "k" in
  let w0 := {| now := 0; lru := Bench.constructor 2 |} in
  let w1 := call_set Bench.set w0 [k; JsString "v"; JsNumber 1] in
  let w2 := elapse 5 w1 in
  let r := call_get Bench.get w2 [k] in
  now w1 + 1 < now w2 /\
  fst r = JsString "v" /\
  fst r <> Bench.absent /\
  containsKey (lru (snd r)) k = true.
Proof. cbv zeta. repeat split. discriminate. Qed.

(** ** Stored values that look like a miss *)

(** C10 (a stored absent value and a miss), as the code has it.  In the
    benchmark variant a stored [null] is read back as [null], which is what a
    miss returns.  In the guide's variant a stored [undefined] is read back as
    [undefined], which is what a miss returns; any other falsy value is read
    back as itself, so it agrees with the result of a miss in truthiness
    only. *)
Theorem absent_value_like_miss
    (this other : LRUCache) (key missing value : JsValue) :
  containsKey other missing = false ->
  truthy value = false ->
  fst (Bench.get (Bench.set this key JsNull) key) =
    fst (Bench.get other missing) /\
  fst (Guide.get (Guide.set this key JsUndefined) key) =
    fst (Guide.get other missing) /\
  fst (Guide.get (Guide.set this key value) key) = value /\
  truthy (fst (Guide.get (Guide.set this key value) key)) =
    truthy (fst (Guide.get other missing)).
Proof.
  intros Hmiss Hfalsy.
  destruct (miss_like_absent other missing Hmiss) as [-> ->].
  rewrite (proj1 (bench_get_after_set this key JsNull)).
  rewrite (proj1 (guide_get_after_set this key JsUndefined)).
  rewrite (proj1 (guide_get_after_set this key value)).
  now rewrite Hfalsy.
Qed.

Lemma absent_value_like_miss_witness :
  containsKey (Guide.constructor 2) (JsString "other") = false /\
  truthy (JsNumber 0) = false /\
  fst (Guide.get (Guide.set (Guide.constructor 2) (JsString "k") (JsNumber 0))
         (JsString "k")) = JsNumber 0.
Proof.
  split; [reflexivity|]. split; [reflexivity|].
  exact (proj1 (proj2 (proj2
    (absent_value_like_miss (Guide.constructor 2) (Guide.constructor 2)
       (JsString "k") (JsString "other") (JsNumber 0) eq_refl eq_refl)))).
Defined.

(** C10 as stated fails in the guide's variant for the falsy value 0: the
    lookup returns 0, a miss returns [undefined], and the two differ. *)
Lemma falsy_value_vs_miss_counterexample :
  let this := Guide.constructor 2 in
  truthy (JsNumber 0) = false /\
  containsKey this (JsString "never") = false /\
  fst (Guide.get (Guide.set this (JsString "k") (JsNumber 0)) (JsString "k"))
  <> fst (Guide.get this (JsString "never")).
Proof. cbv zeta. repeat split. discriminate. Qed.

(** * More of the cache *)

(** ** What [set] does to the order *)

Lemma wf_cons_inv (k v : JsValue) (rest : Map.t) :
  Map.wf ((k, v) :: rest) -> Map.has rest k = false /\ Map.wf rest.
Proof.
  unfold Map.wf. simpl. intros H.
  inversion H as [| ? ? Hnotin Hrest]; subst. split; [|assumption].
  destruct (Map.has rest k) eqn:Hhas; [|reflexivity].
  apply has_In_keys in Hhas. contradiction.
Qed.

Lemma delete_first_key_wf (m : Map.t) :
  Map.wf m -> Map.delete m (Map.first_key m) = tl m.
Proof.
  destruct m as [| [k v] rest]; [reflexivity|]. intros Hwf.
  destruct (wf_cons_inv _ _ _ Hwf) as [Hfresh _].
  simpl. rewrite same_value_zero_refl. now apply delete_absent.
Qed.

Lemma has_tl (m : Map.t) (key : JsValue) :
  Map.has m key = false -> Map.has (tl m) key = false.
Proof.
  destruct m as [| [k v] rest]; simpl; [trivial|]. cmp_keys.
Qed.

(** On a full cache, [set] writes into what is left without the oldest
    entry. *)
Lemma set_at_capacity_wf (this : LRUCache) (key value : JsValue) :
  Map.wf (cache this) -> maxSize this <= size this ->
  cache (Bench.set this key value) = Map.set (tl (cache this)) key value.
Proof.
  intros Hwf Hfull. rewrite set_at_capacity by assumption.
  now rewrite delete_first_key_wf.
Qed.

(** X1.  A [set] of a key that is not in the cache appends the entry at the
    young end; when the cache is full (its size has reached [maxSize]) exactly
    the oldest entry goes, and the rest keeps its order.  Both variants. *)
Theorem set_new_key_evicts_oldest (this : LRUCache) (key value : JsValue) :
  Map.wf (cache this) ->
  containsKey this key = false ->
  cache (Bench.set this key value) =
    (if size this >=? maxSize this then tl (cache this) else cache this)
    ++ [(key, value)] /\
  Guide.set this key value = Bench.set this key value.
Proof.
  intros Hwf Hnew. split; [|reflexivity].
  unfold containsKey, size in *.
  destruct (Z.geb_spec (Map.size (cache this)) (maxSize this)) as [Hfull | Hroom].
  - rewrite set_at_capacity_wf by assumption.
    now apply set_absent, has_tl.
  - rewrite set_below_capacity by assumption. now apply set_absent.
Qed.

Lemma set_new_key_evicts_oldest_witness :
  let full := tie_scenario Bench.set (Bench.constructor 2)
                (JsString "a") (JsString "b") in
  Map.wf (cache full) /\
  containsKey full (JsString "c") = false /\
  cache (Bench.set full (JsString "c") (JsNumber 3)) =
    [(JsString "b", JsNumber 2); (JsString "c", JsNumber 3)].
Proof.
  intros full.
  assert (Hwf : Map.wf (cache full)).
  { repeat constructor; simpl; intuition discriminate. }
  split; [exact Hwf|]. split; [reflexivity|].
  exact (proj1 (set_new_key_evicts_oldest full (JsString "c") (JsNumber 3)
                  Hwf eq_refl)).
Defined.

(** X2.  Writing the oldest key of a full cache evicts nothing else: the key
    itself is deleted and set again, so it moves to the young end with the
    new value and the size stays. *)
Theorem overwrite_oldest_at_capacity
    (this : LRUCache) (key old value : JsValue) (rest : Map.t) :
  Map.wf (cache this) ->
  cache this = (key, old) :: rest ->
  maxSize this <= size this ->
  cache (Bench.set this key value) = rest ++ [(key, value)] /\
  size (Bench.set this key value) = size this /\
  mostRecent (Bench.set this key value) = Some key.
Proof.
  intros Hwf Hshape Hfull.
  assert (Hcache : cache (Bench.set this key value) = rest ++ [(key, value)]).
  { rewrite set_at_capacity_wf by assumption. rewrite Hshape in *. simpl.
    apply set_absent. now destruct (wf_cons_inv _ _ _ Hwf). }
  split; [assumption|]. unfold size, mostRecent, Map.size.
  rewrite Hcache, Hshape, last_key_snoc, length_app. simpl.
  split; [lia | reflexivity].
Qed.

Lemma overwrite_oldest_at_capacity_witness :
  let full := tie_scenario Bench.set (Bench.constructor 2)
                (JsString "a") (JsString "b") in
  Map.wf (cache full) /\
  maxSize full <= size full /\
  cache (Bench.set full (JsString "a") (JsNumber 9)) =
    [(JsString "b", JsNumber 2); (JsString "a", JsNumber 9)].
Proof.
  intros full.
  assert (Hwf : Map.wf (cache full)).
  { repeat constructor; simpl; intuition discriminate. }
  assert (Hfull : maxSize full <= size full) by (vm_compute; discriminate).
  split; [exact Hwf|]. split; [exact Hfull|].
  exact (proj1 (overwrite_oldest_at_capacity full (JsString "a") (JsNumber 1)
                  (JsNumber 9) [(JsString "b", JsNumber 2)]
                  Hwf eq_refl Hfull)).
Defined.

(** X3.  Writing any other key that is already in a full cache still evicts
    the oldest entry: the value is replaced in place, the oldest key is gone
    and the cache is one entry short. *)
Theorem overwrite_younger_at_capacity
    (this : LRUCache) (oldest v0 key value : JsValue) (rest : Map.t) :
  Map.wf (cache this) ->
  cache this = (oldest, v0) :: rest ->
  Map.has rest key = true ->
  maxSize this <= size this ->
  cache (Bench.set this key value) = Map.set rest key value /\
  Map.keys (cache (Bench.set this key value)) = Map.keys rest /\
  containsKey (Bench.set this key value) oldest = false /\
  size (Bench.set this key value) = size this - 1.
Proof.
  intros Hwf Hshape Hin Hfull.
  assert (Hcache : cache (Bench.set this key value) = Map.set rest key value).
  { rewrite set_at_capacity_wf by assumption. now rewrite Hshape. }
  rewrite Hshape in Hwf. destruct (wf_cons_inv _ _ _ Hwf) as [Hfresh _].
  assert (Hne : key <> oldest) by (intros ->; congruence).
  unfold containsKey, size, Map.size. rewrite Hcache, Hshape.
  rewrite keys_set_present, has_set_other, length_set_present by assumption.
  repeat split; try assumption.
  change (List.length ((oldest, v0) :: rest)) with (S (List.length rest)). lia.
Qed.

Lemma overwrite_younger_at_capacity_witness :
  let full := tie_scenario Bench.set (Bench.constructor 2)
                (JsString "a") (JsString "b") in
  Map.wf (cache full) /\
  Map.has [(JsString "b", JsNumber 2)] (JsString "b") = true /\
  maxSize full <= size full /\
  size (Bench.set full (JsString "b") (JsNumber 9)) = size full - 1.
Proof.
  intros full.
  assert (Hwf : Map.wf (cache full)).
  { repeat constructor; simpl; intuition discriminate. }
  assert (Hfull : maxSize full <= size full) by (vm_compute; discriminate).
  split; [exact Hwf|]. split; [reflexivity|]. split; [exact Hfull|].
  exact (proj2 (proj2 (proj2
    (overwrite_younger_at_capacity full (JsString "a") (JsNumber 1)
       (JsString "b") (JsNumber 9) [(JsString "b", JsNumber 2)]
       Hwf eq_refl eq_refl Hfull)))).
Defined.

(** ** Loading more entries than the cache holds *)

Lemma keys_app (m1 m2 : Map.t) :
  Map.keys (m1 ++ m2) = Map.keys m1 ++ Map.keys m2.
Proof. apply map_app. Qed.

Lemma set_new_key_shape (this : LRUCache) (key value : JsValue) :
  Map.wf (cache this) ->
  containsKey this key = false ->
  cache (Bench.set this key value) =
    (if size this >=? maxSize this then tl (cache this) else cache this)
    ++ [(key, value)].
Proof.
  intros Hwf Hnew. unfold containsKey, size in *.
  destruct (Z.geb_spec (Map.size (cache this)) (maxSize this)) as [Hfull | Hroom].
  - rewrite set_at_capacity_wf by assumption.
    now apply set_absent, has_tl.
  - rewrite set_below_capacity by assumption. now apply set_absent.
Qed.

Lemma slice_last_all {A : Type} (n : nat) (a : list A) :
  (List.length a <= n)%nat -> slice_last n a = a.
Proof.
  intros H. unfold slice_last.
  now replace (List.length a - n)%nat with 0%nat by lia.
Qed.

Lemma slice_last_cons {A : Type} (n : nat) (x : A) (a : list A) :
  (n <= List.length a)%nat -> slice_last n (x :: a) = slice_last n a.
Proof.
  intros H. unfold slice_last.
  change (List.length (x :: a)) with (S (List.length a)).
  now replace (S (List.length a) - n)%nat with (S (List.length a - n)) by lia.
Qed.

Lemma sets_window (kvs : list (JsValue * JsValue)) :
  forall this : LRUCache,
  0 < maxSize this -> size this <= maxSize this ->
  NoDup (Map.keys (cache this ++ kvs)) ->
  cache (run Bench.get Bench.set this (sets kvs)) =
  slice_last (Z.to_nat (maxSize this)) (cache this ++ kvs).
Proof.
  induction kvs as [| [k v] rest IH]; intros this Hpos Hle Hdistinct.
  - rewrite app_nil_r. simpl. symmetry. apply slice_last_all.
    unfold size, Map.size in Hle. lia.
  - assert (Hwf : Map.wf (cache this)).
    { rewrite keys_app in Hdistinct. now apply NoDup_app_remove_r in Hdistinct. }
    assert (Hnew : containsKey this k = false).
    { unfold containsKey. destruct (Map.has (cache this) k) eqn:Hhas;
        [|reflexivity].
      apply has_In_keys in Hhas. rewrite keys_app in Hdistinct. simpl in Hdistinct.
      apply NoDup_remove_2 in Hdistinct. exfalso. apply Hdistinct.
      apply in_or_app. now left. }
    change (run Bench.get Bench.set this (sets ((k, v) :: rest)))
      with (run Bench.get Bench.set (Bench.set this k v) (sets rest)).
    pose proof (set_new_key_shape this k v Hwf Hnew) as Hshape.
    pose proof (set_size_bound this k v Hpos Hle) as Hbound.
    rewrite IH; rewrite ?set_maxSize; try assumption.
    + rewrite Hshape. unfold size, Map.size in *.
      destruct (Z.geb_spec (Z.of_nat (List.length (cache this))) (maxSize this))
        as [Hfull | Hroom].
      * destruct (cache this) as [| e t] eqn:Hc; [simpl in Hfull; lia|].
        simpl tl. rewrite <- app_assoc. simpl.
        symmetry. apply slice_last_cons.
        rewrite length_app. simpl.
        change (List.length (e :: t)) with (S (List.length t)) in *. lia.
      * now rewrite <- app_assoc.
    + rewrite Hshape, <- app_assoc. simpl.
      destruct (size this >=? maxSize this); [|assumption].
      destruct (cache this) as [| e t]; [assumption|].
      simpl in *. now inversion Hdistinct.
Qed.

(** X4.  A run of [set] calls with keys that are new and pairwise distinct
    leaves the cache with the newest [maxSize] entries of what it held and
    what was written, oldest first: the cache is a sliding window over the
    writes. *)
Theorem bulk_set_keeps_newest
    (this : LRUCache) (kvs : list (JsValue * JsValue)) :
  0 < maxSize this -> size this <= maxSize this ->
  NoDup (Map.keys (cache this ++ kvs)) ->
  cache (run Bench.get Bench.set this (sets kvs)) =
    slice_last (Z.to_nat (maxSize this)) (cache this ++ kvs) /\
  run Guide.get Guide.set this (sets kvs) =
    run Bench.get Bench.set this (sets kvs).
Proof.
  intros Hpos Hle Hdistinct. split; [now apply sets_window|].
  clear. revert this.
  induction kvs as [| [k v] rest IH]; intros this; [reflexivity|].
  apply (IH (Bench.set this k v)).
Qed.

Lemma bulk_set_keeps_newest_witness :
  let kvs := [(JsString "a", JsNumber 1); (JsString "b", JsNumber 2);
              (JsString "c", JsNumber 3)] in
  0 < 2 /\
  NoDup (Map.keys kvs) /\
  cache (run Bench.get Bench.set (Bench.constructor 2) (sets kvs)) =
    [(JsString "b", JsNumber 2); (JsString "c", JsNumber 3)].
Proof.
  intros kvs.
  assert (Hdistinct : NoDup (Map.keys kvs)).
  { repeat constructor; simpl; intuition discriminate. }
  split; [lia|]. split; [exact Hdistinct|].
  refine (proj1 (bulk_set_keeps_newest (Bench.constructor 2) kvs _ _ Hdistinct));
    vm_compute; [reflexivity | discriminate].
Defined.

(** ** The keys of the benchmarks *)

Lemma to_int_not_nil (z : Z) :
  Z.to_int z <> Decimal.Pos Decimal.Nil /\ Z.to_int z <> Decimal.Neg Decimal.Nil.
Proof.
  split; intros H; pose proof (f_equal Z.of_int H) as H0;
    rewrite DecimalZ.of_to in H0; simpl in H0; subst z; discriminate H.
Qed.

Lemma user_key_eq (a b : Z) : user_key a = user_key b -> a = b.
Proof.
  unfold user_key. intros H. injection H as H.
  apply DecimalZ.to_int_inj.
  destruct (to_int_not_nil a) as [Ha1 Ha2].
  destruct (to_int_not_nil b) as [Hb1 Hb2].
  pose proof (NilZero.isi (Z.to_int a) Ha1 Ha2) as Ia.
  pose proof (NilZero.isi (Z.to_int b) Hb1 Hb2) as Ib.
  rewrite H in Ia. congruence.
Qed.

(** X5.  The template [`user:${userId}`] gives different keys to different
    ids: two users never share a cache entry. *)
Theorem user_key_injective (a b : Z) : a <> b -> user_key a <> user_key b.
Proof. intros Hne Heq. now apply Hne, user_key_eq. Qed.

Lemma user_key_injective_witness :
  1 <> 11 /\ user_key 1 <> user_key 11.
Proof.
  assert (Hne : 1 <> 11) by lia.
  split; [exact Hne | exact (user_key_injective 1 11 Hne)].
Defined.

Lemma user_keys_distinct (users : list User) :
  NoDup (List.map _id users) ->
  NoDup (Map.keys (List.map user_entry users)).
Proof.
  unfold Map.keys. rewrite map_map. simpl.
  induction users as [| u rest IH]; simpl; intros H; [constructor|].
  inversion H as [| ? ? Hnotin Hrest]; subst.
  constructor; [|now apply IH].
  intros Hin. apply in_map_iff in Hin. destruct Hin as [u' [Heq Hin]].
  apply Hnotin. apply in_map_iff. exists u'. split; [|assumption].
  now apply user_key_eq.
Qed.

Lemma load_users_as_sets (users : list User) :
  forall lruCache : LRUCache,
  load_users users lruCache =
  run Bench.get Bench.set lruCache (sets (List.map user_entry users)).
Proof.
  induction users as [| u rest IH]; intros lruCache; [reflexivity|].
  apply (IH (Bench.set lruCache (user_key (_id u)) (document u))).
Qed.

(** X6.  Loading users with pairwise distinct ids into a fresh cache leaves
    the last [maxSize] of them, in the order of the load: with the 1000 users
    and the capacity 1000 of the benchmark all of them, with more users the
    first ones are gone. *)
Theorem load_users_keeps_newest (capacity : Z) (users : list User) :
  0 < capacity ->
  NoDup (List.map _id users) ->
  cache (load_users users (Bench.constructor capacity)) =
  slice_last (Z.to_nat capacity) (List.map user_entry users).
Proof.
  intros Hpos Hdistinct. rewrite load_users_as_sets.
  apply (sets_window (List.map user_entry users) (Bench.constructor capacity)).
  - assumption.
  - unfold size, Map.size. simpl. lia.
  - simpl. now apply user_keys_distinct.
Qed.

Lemma load_users_keeps_newest_witness :
  let users := [mkUser 1 (JsObject 1); mkUser 2 (JsObject 2);
                mkUser 3 (JsObject 3)] in
  0 < 2 /\
  NoDup (List.map _id users) /\
  cache (load_users users (Bench.constructor 2)) =
    [(JsString "user:2", JsObject 2); (JsString "user:3", JsObject 3)].
Proof.
  intros users.
  assert (Hdistinct : NoDup (List.map _id users)).
  { repeat constructor; simpl; intuition discriminate. }
  split; [lia|]. split; [exact Hdistinct|].
  refine (load_users_keeps_newest 2 users _ Hdistinct). lia.
Defined.

(** The plain map of the benchmarks has no bound. *)
Lemma map_set_fresh_run (entries : list (JsValue * JsValue)) :
  forall m : Map.t,
  NoDup (Map.keys (m ++ entries)) ->
  fold_left (fun m e => Map.set m (fst e) (snd e)) entries m = m ++ entries.
Proof.
  induction entries as [| [k v] rest IH]; intros m Hdistinct; simpl.
  - now rewrite app_nil_r.
  - assert (Hnew : Map.has m k = false).
    { destruct (Map.has m k) eqn:Hhas; [|reflexivity].
      apply has_In_keys in Hhas. rewrite keys_app in Hdistinct.
      simpl in Hdistinct. apply NoDup_remove_2 in Hdistinct.
      exfalso. apply Hdistinct. apply in_or_app. now left. }
    rewrite (set_absent _ _ v Hnew), IH; rewrite <- app_assoc; [reflexivity|].
    assumption.
Qed.

Lemma load_users_memory_as_fold (users : list User) :
  forall m : Map.t,
  load_users_memory users m =
  fold_left (fun m e => Map.set m (fst e) (snd e))
    (List.map user_entry users) m.
Proof.
  induction users as [| u rest IH]; intros m; [reflexivity|].
  apply (IH (Map.set m (user_key (_id u)) (document u))).
Qed.

(** X7.  The same load into the plain [memoryCache] keeps every user: from
    an empty map, the map holds one entry per user afterwards, in the order
    of the load, however many there are. *)
Theorem load_users_memory_keeps_all (users : list User) :
  NoDup (List.map _id users) ->
  load_users_memory users Map.empty = List.map user_entry users /\
  Map.size (load_users_memory users Map.empty) = Z.of_nat (List.length users).
Proof.
  intros Hdistinct.
  assert (H : load_users_memory users Map.empty = List.map user_entry users).
  { rewrite load_users_memory_as_fold.
    apply (map_set_fresh_run (List.map user_entry users) Map.empty).
    simpl. now apply user_keys_distinct. }
  split; [assumption|]. unfold Map.size. now rewrite H, length_map.
Qed.

Lemma load_users_memory_keeps_all_witness :
  let users := [mkUser 1 (JsObject 1); mkUser 2 (JsObject 2);
                mkUser 3 (JsObject 3)] in
  NoDup (List.map _id users) /\
  Map.size (load_users_memory users Map.empty) = 3.
Proof.
  intros users.
  assert (Hdistinct : NoDup (List.map _id users)).
  { repeat constructor; simpl; intuition discriminate. }
  split; [exact Hdistinct|].
  exact (proj2 (load_users_memory_keeps_all users Hdistinct)).
Defined.

(** ** A capacity of zero or less *)

Lemma nonpositive_set_singleton (this : LRUCache) (key value : JsValue) :
  maxSize this <= 0 -> (List.length (cache this) <= 1)%nat ->
  cache (Bench.set this key value) = [(key, value)].
Proof.
  intros Hcap Hlen. rewrite set_at_capacity by (pose proof (size_nonneg this); lia).
  destruct (cache this) as [| [k v] [| e rest]]; simpl in *; [reflexivity | | lia].
  now rewrite same_value_zero_refl.
Qed.

Lemma nonpositive_sets_short (kvs : list (JsValue * JsValue)) :
  forall this : LRUCache,
  maxSize this <= 0 -> (List.length (cache this) <= 1)%nat ->
  (List.length (cache (run Bench.get Bench.set this (sets kvs))) <= 1)%nat /\
  maxSize (run Bench.get Bench.set this (sets kvs)) = maxSize this.
Proof.
  induction kvs as [| [k v] rest IH]; intros this Hcap Hlen; [now split|].
  change (run Bench.get Bench.set this (sets ((k, v) :: rest)))
    with (run Bench.get Bench.set (Bench.set this k v) (sets rest)).
  apply (IH (Bench.set this k v)); [assumption|].
  rewrite nonpositive_set_singleton by assumption. simpl. lia.
Qed.

(** X8.  A cache constructed with a capacity of zero or less is not empty
    after a [set]: whatever was written before, it holds exactly the entry of
    the last [set], one entry more than its capacity allows. *)
Theorem nonpositive_capacity_keeps_last
    (capacity : Z) (kvs : list (JsValue * JsValue)) (key value : JsValue) :
  capacity <= 0 ->
  let this :=
    run Bench.get Bench.set (Bench.constructor capacity)
      (sets (kvs ++ [(key, value)])) in
  cache this = [(key, value)] /\ size this = 1 /\ maxSize this < size this.
Proof.
  intros Hcap this. subst this.
  unfold sets. rewrite map_app. fold (sets kvs).
  change (List.map (fun kv => OpSet (fst kv) (snd kv)) [(key, value)])
    with [OpSet key value].
  rewrite (run_snoc Bench.get Bench.set).
  set (before := run Bench.get Bench.set (Bench.constructor capacity) (sets kvs)).
  change (step Bench.get Bench.set before (OpSet key value))
    with (Bench.set before key value).
  destruct (nonpositive_sets_short kvs (Bench.constructor capacity))
    as [Hlen Hmax]; [assumption | simpl; lia |].
  fold before in Hlen, Hmax. simpl in Hmax.
  assert (Hcache : cache (Bench.set before key value) = [(key, value)]).
  { apply nonpositive_set_singleton; [lia | assumption]. }
  unfold size, Map.size. rewrite Hcache, set_maxSize, Hmax. simpl.
  repeat split. lia.
Qed.

Lemma nonpositive_capacity_keeps_last_witness :
  0 <= 0 /\
  cache (run Bench.get Bench.set (Bench.constructor 0)
           (sets ([(JsString "a", JsNumber 1)] ++ [(JsString "b", JsNumber 2)])))
  = [(JsString "b", JsNumber 2)].
Proof.
  split; [lia|].
  refine (proj1 (nonpositive_capacity_keeps_last 0
                   [(JsString "a", JsNumber 1)] (JsString "b") (JsNumber 2) _)).
  lia.
Defined.

(** ** What [get] does to the cache *)

Lemma delete_app (m1 m2 : Map.t) (key : JsValue) :
  Map.delete (m1 ++ m2) key = Map.delete m1 key ++ Map.delete m2 key.
Proof.
  induction m1 as [| [k v] rest IH]; simpl; [reflexivity|].
  cmp_keys; rewrite ?IH; reflexivity.
Qed.

Lemma refresh_idempotent (m : Map.t) (key : JsValue) :
  refresh (refresh m key) key = refresh m key.
Proof.
  rewrite (refresh_moves_to_end (refresh m key)), refresh_get.
  rewrite (refresh_moves_to_end m) at 1. rewrite delete_app. simpl.
  rewrite same_value_zero_refl, app_nil_r.
  rewrite (delete_absent _ _ (has_delete_same m key)).
  symmetry. apply refresh_moves_to_end.
Qed.

Lemma bench_get_twice (this : LRUCache) (key : JsValue) :
  snd (Bench.get (snd (Bench.get this key)) key) = snd (Bench.get this key).
Proof.
  destruct (bench_get_cases this key) as [H1 | [_ H1]]; rewrite H1;
    [assumption|].
  match goal with |- snd (Bench.get ?c key) = _ =>
    destruct (bench_get_cases c key) as [H2 | [_ H2]]; rewrite H2 end;
    [reflexivity|].
  simpl. f_equal. apply refresh_idempotent.
Qed.

Lemma guide_get_twice (this : LRUCache) (key : JsValue) :
  snd (Guide.get (snd (Guide.get this key)) key) = snd (Guide.get this key).
Proof.
  destruct (guide_get_cases this key) as [H1 | [_ H1]]; rewrite H1;
    [assumption|].
  match goal with |- snd (Guide.get ?c key) = _ =>
    destruct (guide_get_cases c key) as [H2 | [_ H2]]; rewrite H2 end;
    [reflexivity|].
  simpl. f_equal. apply refresh_idempotent.
Qed.

Lemma bench_get_result_stable (this other : LRUCache) (key : JsValue) :
  containsKey other key = containsKey this key ->
  Map.get (cache other) key = Map.get (cache this) key ->
  fst (Bench.get other key) = fst (Bench.get this key).
Proof.
  unfold containsKey, Bench.get. intros -> ->.
  now destruct (Map.has (cache this) key).
Qed.

(** X9.  Reading the same key again and again is reading it once: after the
    first [get] the cache no longer changes, and every [get] of the loop
    returns what the first one returned.  The guide's [get] is idempotent in
    the same way. *)
Theorem repeated_get_is_one_get
    (iterations : nat) (this : LRUCache) (key : JsValue) :
  (0 < iterations)%nat ->
  get_loop iterations this key = snd (Bench.get this key) /\
  fst (Bench.get (get_loop iterations this key) key) =
    fst (Bench.get this key) /\
  snd (Guide.get (snd (Guide.get this key)) key) = snd (Guide.get this key).
Proof.
  intros Hpos.
  assert (Hloop : get_loop iterations this key = snd (Bench.get this key)).
  { destruct iterations as [| n]; [lia|]. clear Hpos. revert this.
    induction n as [| n IH]; intros this; [reflexivity|].
    change (get_loop (S (S n)) this key)
      with (get_loop (S n) (snd (Bench.get this key)) key).
    rewrite IH. apply bench_get_twice. }
  split; [assumption|]. split; [|apply guide_get_twice].
  rewrite Hloop. apply bench_get_result_stable.
  - apply bench_get_keeps_has.
  - apply bench_get_keeps_get.
Qed.

Lemma repeated_get_is_one_get_witness :
  let warm := Bench.set (Bench.constructor 1000) (user_key 7) (JsObject 7) in
  (0 < 1000)%nat /\
  get_loop 1000 warm (user_key 7) = snd (Bench.get warm (user_key 7)).
Proof.
  intros warm.
  assert (Hpos : (0 < 1000)%nat) by lia.
  split; [exact Hpos|].
  exact (proj1 (repeated_get_is_one_get 1000 warm (user_key 7) Hpos)).
Defined.

Lemma refresh_permutation (m : Map.t) (key : JsValue) :
  Map.wf m -> Map.has m key = true -> Permutation (refresh m key) m.
Proof.
  rewrite refresh_moves_to_end.
  induction m as [| [k v] rest IH]; simpl; intros Hwf Hhas; [discriminate|].
  destruct (wf_cons_inv _ _ _ Hwf) as [Hfresh Hrest].
  cmp_keys.
  - rewrite (delete_absent _ _ Hfresh).
    apply Permutation_sym, Permutation_cons_append.
  - simpl. apply perm_skip. now apply IH.
Qed.

(** X10.  A [get] never loses an entry and never changes a value: the cache
    after it holds the same entries as before, possibly in another order,
    and the same capacity.  Both variants. *)
Theorem get_keeps_entries (this : LRUCache) (key : JsValue) :
  Map.wf (cache this) ->
  (Permutation (cache (snd (Bench.get this key))) (cache this) /\
   maxSize (snd (Bench.get this key)) = maxSize this) /\
  (Permutation (cache (snd (Guide.get this key))) (cache this) /\
   maxSize (snd (Guide.get this key)) = maxSize this).
Proof.
  intros Hwf. split; split.
  - destruct (bench_get_cases this key) as [-> | [Hin ->]];
      [reflexivity | now apply refresh_permutation].
  - apply bench_get_maxSize.
  - destruct (guide_get_cases this key) as [-> | [Hin ->]];
      [reflexivity | now apply refresh_permutation].
  - apply guide_get_maxSize.
Qed.

Lemma get_keeps_entries_witness :
  let two := tie_scenario Bench.set (Bench.constructor 2)
               (JsString "a") (JsString "b") in
  Map.wf (cache two) /\
  Permutation (cache (snd (Bench.get two (JsString "a")))) (cache two).
Proof.
  intros two.
  assert (Hwf : Map.wf (cache two)).
  { repeat constructor; simpl; intuition discriminate. }
  split; [exact Hwf|].
  exact (proj1 (proj1 (get_keeps_entries two (JsString "a") Hwf))).
Defined.

(** X11.  The only way out of the cache: a key that is in the cache before a
    call and not after it was the oldest key of a full cache, and the call
    was a [set] of another key.  No [get] removes an entry, and the guide's
    variant loses the key on the same call. *)
Theorem only_eviction_removes
    (this : LRUCache) (o : op) (k : JsValue) :
  containsKey this k = true ->
  containsKey (step Bench.get Bench.set this o) k = false ->
  (exists key value,
     o = OpSet key value /\ key <> k /\
     maxSize this <= size this /\ Map.first_key (cache this) = k) /\
  containsKey (step Guide.get Guide.set this o) k = false.
Proof.
  intros Hin Hout.
  assert (Hex := @step_removes_by_eviction Bench.get Bench.set
                   bench_get_keeps_has eq_refl this o k Hin Hout).
  split; [assumption|].
  destruct Hex as [key [value [-> _]]]. exact Hout.
Qed.

Lemma only_eviction_removes_witness :
  let full := tie_scenario Bench.set (Bench.constructor 2)
                (JsString "a") (JsString "b") in
  containsKey full (JsString "a") = true /\
  containsKey (step Bench.get Bench.set full
                 (OpSet (JsString "c") (JsNumber 3))) (JsString "a") = false /\
  Map.first_key (cache full) = JsString "a".
Proof.
  intros full. split; [reflexivity|]. split; [reflexivity|].
  destruct (proj1 (only_eviction_removes full
                     (OpSet (JsString "c") (JsNumber 3)) (JsString "a")
                     eq_refl eq_refl))
    as [key [value [_ [_ [_ Hfirst]]]]].
  exact Hfirst.
Defined.

(** ** The benchmark functions *)

Lemma lru_benchmark_hit (findOne : Z -> JsValue) (c : LRUCache) (userId : Z) :
  truthy (fst (Bench.get c (user_key userId))) = true ->
  lru_benchmark_fn findOne c userId = (snd (Bench.get c (user_key userId)), false).
Proof. unfold lru_benchmark_fn. now intros ->. Qed.

Lemma lru_benchmark_miss (findOne : Z -> JsValue) (c : LRUCache) (userId : Z) :
  truthy (fst (Bench.get c (user_key userId))) = false ->
  lru_benchmark_fn findOne c userId =
  (Bench.set (snd (Bench.get c (user_key userId))) (user_key userId)
     (findOne userId), true).
Proof. unfold lru_benchmark_fn. now intros ->. Qed.

(** X12.  Looking a user up fills the cache: when the database has the user
    (a document, which is truthy), a second lookup of the same user right
    after the first does not reach the database, whatever the cache held and
    whatever its capacity. *)
Theorem lru_benchmark_second_lookup_is_hit
    (findOne : Z -> JsValue) (lruCache : LRUCache) (userId : Z) :
  truthy (findOne userId) = true ->
  snd (lru_benchmark_fn findOne
         (fst (lru_benchmark_fn findOne lruCache userId)) userId) = false.
Proof.
  intros Hfound.
  destruct (truthy (fst (Bench.get lruCache (user_key userId)))) eqn:Hfirst.
  - rewrite (lru_benchmark_hit findOne _ _ Hfirst). simpl.
    rewrite lru_benchmark_hit; [reflexivity|].
    rewrite (bench_get_result_stable lruCache); [assumption | |].
    + apply bench_get_keeps_has.
    + apply bench_get_keeps_get.
  - rewrite (lru_benchmark_miss findOne _ _ Hfirst). simpl.
    rewrite lru_benchmark_hit; [reflexivity|].
    now rewrite (proj1 (bench_get_after_set _ _ _)).
Qed.

Lemma lru_benchmark_second_lookup_is_hit_witness :
  let findOne := fun userId : Z => JsObject (Z.to_nat userId) in
  truthy (findOne 7) = true /\
  lru_benchmark_fn findOne (Bench.constructor 1000) 7 =
    ({| maxSize := 1000; cache := [(JsString "user:7", JsObject 7)] |}, true)
  /\
  snd (lru_benchmark_fn findOne
         (fst (lru_benchmark_fn findOne (Bench.constructor 1000) 7)) 7) = false.
Proof.
  intros findOne. split; [reflexivity|]. split; [reflexivity|].
  exact (lru_benchmark_second_lookup_is_hit findOne (Bench.constructor 1000) 7
           eq_refl).
Defined.

Lemma bench_get_falsy (c : LRUCache) (key : JsValue) :
  truthy (Map.get (cache c) key) = false ->
  truthy (fst (Bench.get c key)) = false.
Proof.
  unfold Bench.get. intros H. now destruct (Map.has (cache c) key).
Qed.

Lemma lru_benchmark_null_step
    (findOne : Z -> JsValue) (c : LRUCache) (userId : Z) :
  truthy (findOne userId) = false ->
  truthy (Map.get (cache c) (user_key userId)) = false ->
  snd (lru_benchmark_fn findOne c userId) = true /\
  truthy (Map.get (cache (fst (lru_benchmark_fn findOne c userId)))
            (user_key userId)) = false.
Proof.
  intros Hnone Hfalsy.
  rewrite (lru_benchmark_miss findOne _ _ (bench_get_falsy _ _ Hfalsy)). simpl.
  split; [reflexivity|]. now rewrite get_set_same.
Qed.

(** X13.  A user the database does not have is asked for every time: when
    [findOne] answers [null] (or anything falsy) and the cache has nothing
    truthy under the key, every lookup of that user queries the database
    again, although each of them stores the answer in the cache. *)
Theorem lru_benchmark_missing_user_always_queries
    (findOne : Z -> JsValue) (lruCache : LRUCache) (userId : Z) (n : nat) :
  truthy (findOne userId) = false ->
  truthy (Map.get (cache lruCache) (user_key userId)) = false ->
  let again :=
    Nat.iter n (fun c => fst (lru_benchmark_fn findOne c userId)) lruCache in
  snd (lru_benchmark_fn findOne again userId) = true /\
  (0 < n -> containsKey again (user_key userId) = true)%nat.
Proof.
  intros Hnone Hfalsy again. subst again.
  assert (Hinv : truthy (Map.get (cache
            (Nat.iter n (fun c => fst (lru_benchmark_fn findOne c userId))
               lruCache)) (user_key userId)) = false).
  { induction n as [| n IH]; [assumption|]. simpl.
    now apply lru_benchmark_null_step. }
  split; [now apply lru_benchmark_null_step|].
  intros Hpos. destruct n as [| n]; [lia|]. simpl.
  match goal with |- containsKey (fst (lru_benchmark_fn _ ?c _)) _ = _ =>
    assert (Hprev : truthy (Map.get (cache c) (user_key userId)) = false) end.
  { clear Hinv Hpos. induction n as [| n IH]; [assumption|]. simpl.
    now apply lru_benchmark_null_step. }
  rewrite (lru_benchmark_miss findOne _ _ (bench_get_falsy _ _ Hprev)). simpl.
  apply set_contains.
Qed.

Lemma lru_benchmark_missing_user_always_queries_witness :
  let findOne := fun _ : Z => JsNull in
  truthy (findOne 7) = false /\
  truthy (Map.get (cache (Bench.constructor 1000)) (user_key 7)) = false /\
  snd (lru_benchmark_fn findOne
         (Nat.iter 3 (fun c => fst (lru_benchmark_fn findOne c 7))
            (Bench.constructor 1000)) 7) = true.
Proof.
  intros findOne. split; [reflexivity|]. split; [reflexivity|].
  exact (proj1 (lru_benchmark_missing_user_always_queries findOne
                  (Bench.constructor 1000) 7 3 eq_refl eq_refl)).
Defined.

Lemma memory_benchmark_keeps (findOne : Z -> JsValue) (m : Map.t)
    (userId : Z) (key : JsValue) :
  Map.has m key = true ->
  Map.has (fst (memory_benchmark_fn findOne m userId)) key = true.
Proof.
  intros Hin. unfold memory_benchmark_fn.
  destruct (Map.has m (user_key userId)) eqn:Hhas; simpl; [assumption|].
  rewrite has_set_other; [assumption|]. intros Heq. congruence.
Qed.

(** X14.  The plain [memoryCache] asks the database once per user: after a
    lookup of a user, and whatever other lookups follow, a lookup of the same
    user does not reach the database, also when the database answered
    [null].  Nothing is ever evicted from this map. *)
Theorem memory_benchmark_queries_once
    (findOne : Z -> JsValue) (memoryCache : Map.t) (userId : Z)
    (others : list Z) :
  let after :=
    fold_left (fun m i => fst (memory_benchmark_fn findOne m i)) others
      (fst (memory_benchmark_fn findOne memoryCache userId)) in
  memory_benchmark_fn findOne after userId = (after, false).
Proof.
  intros after.
  assert (Hin : Map.has after (user_key userId) = true).
  { subst after.
    assert (H0 : Map.has (fst (memory_benchmark_fn findOne memoryCache userId))
                   (user_key userId) = true).
    { unfold memory_benchmark_fn.
      destruct (Map.has memoryCache (user_key userId)) eqn:Hhas; simpl;
        [assumption | apply has_set_same]. }
    revert H0.
    generalize (fst (memory_benchmark_fn findOne memoryCache userId)).
    induction others as [| i rest IH]; intros m Hm; [assumption|].
    simpl. apply IH. now apply memory_benchmark_keeps. }
  unfold memory_benchmark_fn. now rewrite Hin.
Qed.

(** * The object pool *)

Section PoolFacts.

Context {F : Type}.
Implicit Types (this : Pool.ObjectPool F) (world : F) (obj : JsValue).

Lemma pop_nil : Pool.pop [] = (JsUndefined, []).
Proof. reflexivity. Qed.

Lemma pop_snoc (front : list JsValue) (x : JsValue) :
  Pool.pop (front ++ [x]) = (x, front).
Proof. unfold Pool.pop. rewrite rev_app_distr. simpl. now rewrite rev_involutive. Qed.

Lemma pop_length (a : list JsValue) :
  (List.length (snd (Pool.pop a)) <= List.length a)%nat.
Proof.
  destruct a as [| y a0] using rev_ind; [simpl; lia|].
  rewrite pop_snoc, length_app. simpl. lia.
Qed.

Lemma acquire_top (c : F -> JsValue * F) (m : Z) (p : list JsValue)
    (x : JsValue) world :
  truthy x = true ->
  Pool.acquire (Pool.mkObjectPool c m (p ++ [x])) world =
  (x, Pool.mkObjectPool c m p, world).
Proof.
  intros Hx. unfold Pool.acquire. simpl. rewrite pop_snoc. simpl.
  now rewrite Hx.
Qed.

Lemma release_room (c : F -> JsValue * F) (m : Z) (p : list JsValue) obj :
  Z.of_nat (List.length p) < m ->
  Pool.release (Pool.mkObjectPool c m p) obj = Pool.mkObjectPool c m (p ++ [obj]).
Proof.
  intros Hroom. unfold Pool.release. simpl.
  destruct (Z.ltb_spec (Z.of_nat (List.length p)) m); [reflexivity | lia].
Qed.

Lemma release_all_room (c : F -> JsValue * F) (m : Z) (objs : list JsValue) :
  forall p : list JsValue,
  Z.of_nat (List.length p + List.length objs) <= m ->
  Pool.release_all (Pool.mkObjectPool c m p) objs =
  Pool.mkObjectPool c m (p ++ objs).
Proof.
  induction objs as [| x rest IH]; intros p Hroom.
  - now rewrite app_nil_r.
  - change (Pool.release_all (Pool.mkObjectPool c m p) (x :: rest))
      with (Pool.release_all (Pool.release (Pool.mkObjectPool c m p) x) rest).
    change (List.length (x :: rest)) with (S (List.length rest)) in Hroom.
    rewrite release_room by lia.
    rewrite IH; [now rewrite <- app_assoc|].
    rewrite length_app. simpl. lia.
Qed.

Lemma acquire_many_rev (c : F -> JsValue * F) (m : Z) (p : list JsValue)
    world (objs : list JsValue) :
  Forall (fun o => truthy o = true) objs ->
  Pool.acquire_many (List.length objs) (Pool.mkObjectPool c m (p ++ objs)) world
  = (rev objs, Pool.mkObjectPool c m p, world).
Proof.
  induction objs as [| x front IH] using rev_ind; intros Hall; [now rewrite app_nil_r|].
  apply Forall_app in Hall. destruct Hall as [Hfront Hx].
  inversion Hx as [| ? ? Htruthy _]; subst.
  rewrite length_app, Nat.add_1_r, app_assoc. simpl.
  rewrite acquire_top by assumption. simpl.
  rewrite IH by assumption. simpl. now rewrite rev_app_distr.
Qed.

Lemma pool_step_bound (st : Pool.ObjectPool F * F) (c : Pool.call) :
  Z.of_nat (List.length (Pool.pool (fst st))) <= Z.max 0 (Pool.maxSize (fst st)) ->
  Z.of_nat (List.length (Pool.pool (fst (Pool.step st c))))
    <= Z.max 0 (Pool.maxSize (fst st)) /\
  Pool.maxSize (fst (Pool.step st c)) = Pool.maxSize (fst st) /\
  Pool.createFn (fst (Pool.step st c)) = Pool.createFn (fst st).
Proof.
  destruct st as [this world]. simpl. intros Hle.
  destruct c as [| obj]; simpl.
  - unfold Pool.acquire.
    pose proof (pop_length (Pool.pool this)) as Hpop.
    destruct (truthy (fst (Pool.pop (Pool.pool this)))); simpl;
      (split; [lia | split; reflexivity]).
  - unfold Pool.release.
    destruct (Z.ltb_spec (Z.of_nat (List.length (Pool.pool this)))
                (Pool.maxSize this)); simpl.
    + rewrite length_app. simpl. split; [lia | split; reflexivity].
    + split; [lia | split; reflexivity].
Qed.

Lemma pool_run_bound (calls : list Pool.call) :
  forall st : Pool.ObjectPool F * F,
  Z.of_nat (List.length (Pool.pool (fst st))) <= Z.max 0 (Pool.maxSize (fst st)) ->
  Z.of_nat (List.length (Pool.pool (fst (Pool.run st calls))))
    <= Z.max 0 (Pool.maxSize (fst st)) /\
  Pool.maxSize (fst (Pool.run st calls)) = Pool.maxSize (fst st) /\
  Pool.createFn (fst (Pool.run st calls)) = Pool.createFn (fst st).
Proof.
  induction calls as [| c calls IH]; intros st Hle; [now repeat split|].
  change (Pool.run st (c :: calls)) with (Pool.run (Pool.step st c) calls).
  destruct (pool_step_bound st c Hle) as [Hle1 [Hmax1 Hfn1]].
  rewrite <- Hmax1 in Hle1. destruct (IH _ Hle1) as [Hle2 [Hmax2 Hfn2]].
  rewrite Hmax2, Hfn2, Hmax1, Hfn1. rewrite Hmax1 in Hle2. now repeat split.
Qed.

End PoolFacts.

(** X15.  The pool never holds more than [maxSize] objects: after any
    sequence of [acquire] and [release] calls on a new pool, the number of
    pooled objects is at most [maxSize] (none at all when [maxSize] is zero
    or less), and [maxSize] and [createFn] are the ones given to the
    constructor. *)
Theorem pool_never_exceeds_maxSize (F : Type)
    (createFn : F -> JsValue * F) (maxSize : Z) (world : F)
    (calls : list Pool.call) :
  let st := Pool.run (Pool.constructor createFn maxSize, world) calls in
  Z.of_nat (List.length (Pool.pool (fst st))) <= Z.max 0 maxSize /\
  Pool.maxSize (fst st) = maxSize /\
  Pool.createFn (fst st) = createFn.
Proof.
  intros st. subst st.
  apply (pool_run_bound calls (Pool.constructor createFn maxSize, world)).
  simpl. lia.
Qed.

(** X16.  An object given back to a pool with room is the one the next
    [acquire] hands out: when [obj] is truthy and the pool holds fewer than
    [maxSize] objects, [release(obj)] followed by [acquire()] returns [obj],
    does not call [createFn] and leaves the pool as it was. *)
Theorem release_then_acquire (F : Type)
    (this : Pool.ObjectPool F) (obj : JsValue) (world : F) :
  truthy obj = true ->
  Z.of_nat (List.length (Pool.pool this)) < Pool.maxSize this ->
  Pool.acquire (Pool.release this obj) world = (obj, this, world).
Proof.
  destruct this as [c m p]. simpl. intros Hobj Hroom.
  rewrite release_room by assumption. now apply acquire_top.
Qed.

Lemma release_then_acquire_witness :
  let this := Pool.constructor (fun n : nat => (JsObject n, S n)) 2 in
  truthy (JsObject 7) = true /\
  Z.of_nat (List.length (Pool.pool this)) < Pool.maxSize this /\
  Pool.acquire (Pool.release this (JsObject 7)) 0%nat = (JsObject 7, this, 0%nat).
Proof.
  intros this. split; [reflexivity|]. split; [reflexivity|].
  exact (release_then_acquire nat this (JsObject 7) 0%nat eq_refl eq_refl).
Defined.

(** X17.  The pool is a stack: truthy objects released in a row into a pool
    that has room for all of them come back in the reverse order, without a
    call of [createFn], and the pool is then as it was before. *)
Theorem pool_is_last_in_first_out (F : Type)
    (this : Pool.ObjectPool F) (objs : list JsValue) (world : F) :
  Forall (fun o => truthy o = true) objs ->
  Z.of_nat (List.length (Pool.pool this) + List.length objs)
    <= Pool.maxSize this ->
  Pool.acquire_many (List.length objs) (Pool.release_all this objs) world =
  (rev objs, this, world).
Proof.
  destruct this as [c m p]. simpl. intros Hall Hroom.
  rewrite release_all_room by assumption. now apply acquire_many_rev.
Qed.

Lemma pool_is_last_in_first_out_witness :
  let this := Pool.constructor (fun n : nat => (JsObject n, S n)) 3 in
  let objs := [JsObject 1; JsObject 2; JsObject 3] in
  Forall (fun o => truthy o = true) objs /\
  Pool.acquire_many 3 (Pool.release_all this objs) 0%nat =
    ([JsObject 3; JsObject 2; JsObject 1], this, 0%nat).
Proof.
  intros this objs.
  assert (Hall : Forall (fun o => truthy o = true) objs)
    by (repeat constructor).
  split; [exact Hall|].
  refine (pool_is_last_in_first_out nat this objs 0%nat Hall _).
  vm_compute. discriminate.
Defined.

(** X18.  A falsy object does not survive the pool: released into a pool
    with room (0, the empty string, [false], [null], [undefined]), it is
    popped by the next [acquire] and thrown away, [createFn] is called and
    its result is handed out instead. *)
Theorem falsy_object_is_replaced (F : Type)
    (this : Pool.ObjectPool F) (obj : JsValue) (world : F) :
  truthy obj = false ->
  Z.of_nat (List.length (Pool.pool this)) < Pool.maxSize this ->
  Pool.acquire (Pool.release this obj) world =
  (fst (Pool.createFn this world), this, snd (Pool.createFn this world)).
Proof.
  destruct this as [c m p]. simpl. intros Hobj Hroom.
  rewrite release_room by assumption.
  unfold Pool.acquire. simpl. rewrite pop_snoc. simpl. now rewrite Hobj.
Qed.

Lemma falsy_object_is_replaced_witness :
  let this := Pool.constructor (fun n : nat => (JsObject n, S n)) 2 in
  truthy (JsNumber 0) = false /\
  Z.of_nat (List.length (Pool.pool this)) < Pool.maxSize this /\
  Pool.acquire (Pool.release this (JsNumber 0)) 5%nat = (JsObject 5, this, 6%nat).
Proof.
  intros this. split; [reflexivity|]. split; [reflexivity|].
  exact (falsy_object_is_replaced nat this (JsNumber 0) 5%nat eq_refl eq_refl).
Defined.

(** * [memoize] *)

Lemma memoized_miss (S : Type)
    (fn : JsValue -> Map.t * S -> JsValue * (Map.t * S))
    (cache : Map.t) (arg : JsValue) (s : S) :
  Map.has cache arg = false ->
  memoized fn cache arg s =
  (fst (fn arg (cache, s)),
   Map.set (fst (snd (fn arg (cache, s)))) arg (fst (fn arg (cache, s))),
   snd (snd (fn arg (cache, s)))).
Proof.
  intros Hmiss. unfold memoized. rewrite Hmiss. simpl.
  now rewrite get_set_same.
Qed.

Lemma memoized_hit (S : Type)
    (fn : JsValue -> Map.t * S -> JsValue * (Map.t * S))
    (cache : Map.t) (arg : JsValue) (s : S) :
  Map.has cache arg = true ->
  memoized fn cache arg s = (Map.get cache arg, cache, s).
Proof. intros Hhit. unfold memoized. now rewrite Hhit. Qed.

(** X19.  All memoized functions share one cache: after a call of a memoized
    [f] on [arg], a call of any memoized function [g] on the same [arg]
    returns what the first call returned, does not run [g] and leaves the
    cache alone.  For [g = f] this is memoization; for another [g] it is the
    result of [f] that comes back. *)
Theorem memoized_second_call_is_hit (S T : Type)
    (f : JsValue -> Map.t * S -> JsValue * (Map.t * S))
    (g : JsValue -> Map.t * T -> JsValue * (Map.t * T))
    (cache : Map.t) (arg : JsValue) (s : S) (t : T) :
  let first := memoized f cache arg s in
  memoized g (snd (fst first)) arg t = (fst (fst first), snd (fst first), t).
Proof.
  intros first. subst first.
  destruct (Map.has cache arg) eqn:Hhas.
  - rewrite (memoized_hit S f _ _ s Hhas). simpl. now apply memoized_hit.
  - rewrite (memoized_miss S f _ _ s Hhas). simpl.
    rewrite memoized_hit by apply has_set_same.
    now rewrite get_set_same.
Qed.

(** A function keeps the entries of the cache when no key it finds there is
    missing afterwards; it leaves the cache alone when it returns the cache
    it found. *)
Lemma memoized_keeps (S : Type)
    (fn : JsValue -> Map.t * S -> JsValue * (Map.t * S))
    (cache : Map.t) (arg : JsValue) (s : S) (k : JsValue) :
  (forall a c st key,
     Map.has c key = true -> Map.has (fst (snd (fn a (c, st)))) key = true) ->
  Map.has cache k = true \/ k = arg ->
  Map.has (snd (fst (memoized fn cache arg s))) k = true.
Proof.
  intros Hfn Hk. destruct (Map.has cache arg) eqn:Hhas.
  - rewrite (memoized_hit S fn _ _ s Hhas). simpl.
    destruct Hk as [H | ->]; assumption.
  - rewrite (memoized_miss S fn _ _ s Hhas). simpl.
    destruct (JsValue_eq_dec arg k) as [<- | Hne]; [apply has_set_same|].
    rewrite has_set_other by assumption.
    destruct Hk as [H | ->]; [now apply Hfn | congruence].
Qed.

Lemma memoized_calls_keep (S : Type)
    (fn : JsValue -> Map.t * S -> JsValue * (Map.t * S))
    (args : list JsValue) :
  (forall a c st key,
     Map.has c key = true -> Map.has (fst (snd (fn a (c, st)))) key = true) ->
  forall (cache : Map.t) (s : S) (k : JsValue),
  Map.has cache k = true \/ In k args ->
  Map.has (fst (memoized_calls fn cache args s)) k = true.
Proof.
  intros Hfn.
  induction args as [| arg rest IH]; intros cache s k Hk; simpl.
  - destruct Hk as [H | []]. assumption.
  - apply IH. destruct Hk as [H | [<- | H]].
    + left. apply memoized_keeps; [assumption | now left].
    + left. apply memoized_keeps; [assumption | now right].
    + now right.
Qed.

Lemma memoized_calls_keys (S : Type)
    (fn : JsValue -> Map.t * S -> JsValue * (Map.t * S))
    (args : list JsValue) :
  (forall a c st, fst (snd (fn a (c, st))) = c) ->
  forall (cache : Map.t) (s : S),
  NoDup (Map.keys cache ++ args) ->
  Map.keys (fst (memoized_calls fn cache args s)) = Map.keys cache ++ args.
Proof.
  intros Hfn.
  induction args as [| arg rest IH]; intros cache s Hdistinct; simpl.
  - now rewrite app_nil_r.
  - assert (Hmiss : Map.has cache arg = false).
    { destruct (Map.has cache arg) eqn:Hhas; [|reflexivity].
      apply has_In_keys in Hhas. apply NoDup_remove_2 in Hdistinct.
      exfalso. apply Hdistinct, in_or_app. now left. }
    rewrite (memoized_miss S fn _ _ s Hmiss). simpl.
    rewrite Hfn, (set_absent _ _ _ Hmiss).
    rewrite IH; rewrite keys_app; simpl; rewrite <- app_assoc;
      [reflexivity | assumption].
Qed.


Lemma fact_fn_keeps (fuel : nat) :
  forall (a : JsValue) (c : Map.t) (st : unit) (key : JsValue),
  Map.has c key = true ->
  Map.has (fst (snd (fact_fn fuel a (c, st)))) key = true.
Proof.
  induction fuel as [| fuel IH]; intros a c st key Hin.
  - destruct a; assumption.
  - destruct a as [| | b0 | n | s0 | r0]; try assumption. simpl.
    destruct (n <=? 1); [assumption|].
    assert (Hstep : Map.has (snd (fst
              (memoized (fact_fn fuel) c (JsNumber (n - 1)) st))) key = true).
    { apply memoized_keeps; [assumption | now left]. }
    now destruct (fst (fst (memoized (fact_fn fuel) c (JsNumber (n - 1)) st))).
Qed.

(** The recursive use, step by step: [fact(3)] fills the cache with the
    results for 1, 2 and 3, in the order in which the calls complete. *)
Lemma memoized_recursive_factorial :
  memoized (fact_fn 5) Map.empty (JsNumber 3) tt =
  (JsNumber 6,
   [(JsNumber 1, JsNumber 1); (JsNumber 2, JsNumber 2);
    (JsNumber 3, JsNumber 6)],
   tt).
Proof. reflexivity. Qed.


Lemma memoized_pure_invariant (S : Type) (h : JsValue -> JsValue)
    (args : list JsValue) :
  forall (cache : Map.t) (s : S),
  (forall k, Map.has cache k = true -> Map.get cache k = h k) ->
  let after :=
    fst (memoized_calls (fun (a : JsValue) (st : Map.t * S) => (h a, st))
           cache args s) in
  (forall k, Map.has after k = true -> Map.get after k = h k) /\
  (forall k, Map.has cache k = true \/ In k args -> Map.has after k = true).
Proof.
  induction args as [| arg rest IH]; intros cache s Hinv; simpl.
  - split; [assumption|]. intros k [H | []]. assumption.
  - set (r := memoized (fun (a : JsValue) (st : Map.t * S) => (h a, st))
                cache arg s).
    assert (Hstep : (forall k, Map.has (snd (fst r)) k = true ->
                               Map.get (snd (fst r)) k = h k) /\
                    (forall k, Map.has cache k = true \/ k = arg ->
                               Map.has (snd (fst r)) k = true)).
    { subst r. unfold memoized.
      destruct (Map.has cache arg) eqn:Hhas; simpl.
      - split; [assumption|]. intros k [H | ->]; assumption.
      - split.
        + intros k. destruct (JsValue_eq_dec arg k) as [<- | Hne].
          * now rewrite get_set_same.
          * rewrite has_set_other, get_set_other by assumption. apply Hinv.
        + intros k [H | ->]; [|apply has_set_same].
          destruct (JsValue_eq_dec arg k) as [<- | Hne];
            [apply has_set_same | now rewrite has_set_other]. }
    destruct Hstep as [Hinv1 Hkeep1].
    destruct (IH (snd (fst r)) (snd r) Hinv1) as [Hinv2 Hkeep2].
    split; [assumption|].
    intros k [H | [<- | H]]; apply Hkeep2; auto.
Qed.

(** X21.  For a function without effects, memoization does not change
    results: after any calls of the memoized function from an empty cache, a
    further call on an argument seen before returns the value of the function
    at that argument and changes nothing. *)
Theorem memoized_pure_function_is_preserved (S : Type)
    (h : JsValue -> JsValue) (args : list JsValue) (arg : JsValue) (s : S) :
  In arg args ->
  let fn := fun (a : JsValue) (st : Map.t * S) => (h a, st) in
  let after := memoized_calls fn Map.empty args s in
  memoized fn (fst after) arg (snd after) = (h arg, fst after, snd after).
Proof.
  intros Hin fn after.
  destruct (memoized_pure_invariant S h args Map.empty s) as [Hinv Hkeep];
    [discriminate|].
  fold fn in Hinv, Hkeep. fold after in Hinv, Hkeep.
  assert (Hhas : Map.has (fst after) arg = true) by (apply Hkeep; now right).
  rewrite memoized_hit by assumption. now rewrite Hinv.
Qed.

Lemma memoized_pure_function_is_preserved_witness :
  let h := fun a : JsValue =>
             match a with JsNumber n => JsNumber (n * n) | _ => JsNull end in
  let fn := fun (a : JsValue) (st : Map.t * unit) => (h a, st) in
  let args := [JsNumber 2; JsNumber 3; JsNumber 2] in
  let after := memoized_calls fn Map.empty args tt in
  In (JsNumber 3) args /\
  fst (fst (memoized fn (fst after) (JsNumber 3) (snd after))) = JsNumber 9.
Proof.
  intros h fn args after.
  assert (Hin : In (JsNumber 3) args) by (simpl; auto).
  split; [exact Hin|].
  pose proof (memoized_pure_function_is_preserved unit h args (JsNumber 3) tt
                Hin) as H.
  cbv zeta in H. fold fn in H. fold after in H. now rewrite H.
Defined.

(** * [getCachedData] *)

(** X22.  [getCachedData] cannot cache anything for a value that is not an
    object: [computeExpensiveData] runs, then [cache.set] throws a
    [TypeError], and the cache is as before, so every call on such a value
    computes again and fails again. *)
Theorem getCachedData_rejects_primitives (S : Type)
    (computeExpensiveData : JsValue -> S -> JsValue * S)
    (cache : Map.t) (obj : JsValue) (s : S) :
  is_object obj = false ->
  getCachedData computeExpensiveData cache obj s =
    (Throw "TypeError", cache, snd (computeExpensiveData obj s)) /\
  fst (getCachedData computeExpensiveData
         (snd (fst (getCachedData computeExpensiveData cache obj s))) obj
         (snd (getCachedData computeExpensiveData cache obj s))) =
    (Throw "TypeError", cache).
Proof.
  intros Hprim.
  assert (Hcall : forall c st,
            getCachedData computeExpensiveData c obj st =
            (Throw "TypeError", c, snd (computeExpensiveData obj st))).
  { intros c st. unfold getCachedData, WeakMap.has, WeakMap.set.
    now rewrite Hprim. }
  split; [apply Hcall|]. now rewrite !Hcall.
Qed.

Lemma getCachedData_rejects_primitives_witness :
  let compute := fun (v : JsValue) (calls : nat) => (JsObject calls, S calls) in
  is_object (JsString "key") = false /\
  getCachedData compute Map.empty (JsString "key") 0%nat =
    (Throw "TypeError", Map.empty, 1%nat).
Proof.
  intros compute. split; [reflexivity|].
  exact (proj1 (getCachedData_rejects_primitives nat compute Map.empty
                  (JsString "key") 0%nat eq_refl)).
Defined.

(** X23.  For an object, the second call is served from the cache: it
    returns what the first call returned, does not run
    [computeExpensiveData] and leaves the cache alone. *)
Theorem getCachedData_second_call_is_hit (S : Type)
    (computeExpensiveData : JsValue -> S -> JsValue * S)
    (cache : Map.t) (obj : JsValue) (s t : S) :
  is_object obj = true ->
  let first := getCachedData computeExpensiveData cache obj s in
  (exists value, fst (fst first) = Normal value) /\
  getCachedData computeExpensiveData (snd (fst first)) obj t =
    (fst (fst first), snd (fst first), t).
Proof.
  intros Hobj first. subst first.
  unfold getCachedData, WeakMap.has, WeakMap.set, WeakMap.get.
  rewrite Hobj. simpl.
  destruct (Map.has cache obj) eqn:Hhas; simpl.
  - rewrite Hhas. simpl. split; [eexists|]; reflexivity.
  - rewrite has_set_same. simpl. split; [eexists|]; reflexivity.
Qed.

Lemma getCachedData_second_call_is_hit_witness :
  let compute := fun (v : JsValue) (calls : nat) => (JsNumber 5, S calls) in
  is_object (JsObject 1) = true /\
  getCachedData compute
    (snd (fst (getCachedData compute Map.empty (JsObject 1) 0%nat)))
    (JsObject 1) 1%nat =
  (Normal (JsNumber 5), [(JsObject 1, JsNumber 5)], 1%nat).
Proof.
  intros compute. split; [reflexivity|].
  exact (proj2 (getCachedData_second_call_is_hit nat compute Map.empty
                  (JsObject 1) 0%nat 1%nat eq_refl)).
Defined.

(** * The growth monitor *)

Lemma monitor_tick_short (usage : list Z) (heapUsed : Z) :
  (List.length usage < 10)%nat ->
  monitor_tick usage heapUsed = (usage ++ [heapUsed], None).
Proof.
  intros Hshort. unfold monitor_tick. rewrite length_app. simpl.
  destruct (Nat.ltb_spec 10 (List.length usage + 1)); [lia | reflexivity].
Qed.

Lemma monitor_tick_full (u0 : Z) (ut : list Z) (heapUsed : Z) :
  List.length ut = 9%nat ->
  monitor_tick (u0 :: ut) heapUsed = (ut ++ [heapUsed], Some (heapUsed - u0)).
Proof.
  intros Hlen. unfold monitor_tick, slice_last.
  rewrite last_last.
  change ((u0 :: ut) ++ [heapUsed]) with (u0 :: (ut ++ [heapUsed])).
  change (List.length (u0 :: ut ++ [heapUsed]))
    with (S (List.length (ut ++ [heapUsed]))).
  rewrite length_app, Hlen. reflexivity.
Qed.

Lemma monitor_closed_form (samples : list Z) :
  forall usage : list Z,
  (List.length usage <= 10)%nat ->
  fst (monitor usage samples) = slice_last 10 (usage ++ samples) /\
  snd (monitor usage samples) = growths (usage ++ samples).
Proof.
  induction samples as [| h rest IH]; intros usage Hlen.
  - rewrite app_nil_r. simpl. split.
    + symmetry. now apply slice_last_all.
    + unfold growths. rewrite skipn_all2 by assumption.
      now rewrite combine_nil.
  - change (monitor usage (h :: rest))
      with (let r := monitor_tick usage h in
            let rs := monitor (fst r) rest in
            (fst rs, match snd r with
                     | Some growth => growth :: snd rs
                     | None => snd rs
                     end)).
    destruct (Nat.eq_dec (List.length usage) 10) as [Hfull | Hshort].
    + destruct usage as [| u0 ut]; [discriminate|].
      assert (Hut : List.length ut = 9%nat) by (simpl in Hfull; lia).
      rewrite (monitor_tick_full u0 ut h Hut). cbv zeta. simpl fst. simpl snd.
      destruct (IH (ut ++ [h])) as [Hfst Hsnd];
        [rewrite length_app; simpl; lia|].
      rewrite Hfst, Hsnd, <- app_assoc. simpl. split.
      * symmetry. apply slice_last_cons. rewrite length_app. simpl. lia.
      * unfold growths.
        change (skipn 10 (u0 :: ut ++ h :: rest))
          with (skipn 9 (ut ++ h :: rest)).
        rewrite !skipn_app, Hut.
        rewrite (skipn_all2 ut) by lia. rewrite (skipn_all2 ut) by lia.
        reflexivity.
    + rewrite (monitor_tick_short usage h) by lia. cbv zeta. simpl fst. simpl snd.
      destruct (IH (usage ++ [h])) as [Hfst Hsnd];
        [rewrite length_app; simpl; lia|].
      now rewrite Hfst, Hsnd, <- app_assoc.
Qed.

(** X24.  The monitor keeps a window of the last ten samples: after any
    number of ticks, [usage] holds the ten most recent samples (all of them
    while there are at most ten), oldest first. *)
Theorem monitor_keeps_last_ten (samples : list Z) :
  fst (monitor [] samples) = slice_last 10 samples /\
  (List.length (fst (monitor [] samples)) <= 10)%nat.
Proof.
  destruct (monitor_closed_form samples []) as [Hfst _]; [simpl; lia|].
  simpl in Hfst. split; [assumption|].
  rewrite Hfst. unfold slice_last. rewrite length_skipn. lia.
Qed.

(** X25.  What the monitor logs: nothing for the first ten samples, and from
    the eleventh on, at each tick, the new sample minus the sample taken ten
    ticks earlier. *)
Theorem monitor_logs_growth_over_ten_ticks (samples : list Z) :
  snd (monitor [] samples) =
    List.map (fun p => snd p - fst p) (combine samples (skipn 10 samples)) /\
  List.length (snd (monitor [] samples)) = (List.length samples - 10)%nat.
Proof.
  destruct (monitor_closed_form samples []) as [_ Hsnd]; [simpl; lia|].
  simpl in Hsnd. unfold growths in Hsnd. split; [assumption|].
  rewrite Hsnd, length_map, length_combine, length_skipn. lia.
Qed.

(** * The benchmarks and the bound *)

Lemma lru_benchmark_step_bound
    (findOne : Z -> JsValue) (c : LRUCache) (userId : Z) :
  0 < maxSize c -> size c <= maxSize c ->
  size (fst (lru_benchmark_fn findOne c userId)) <= maxSize c /\
  maxSize (fst (lru_benchmark_fn findOne c userId)) = maxSize c.
Proof.
  intros Hpos Hle. unfold lru_benchmark_fn.
  pose proof (bench_get_size c (user_key userId)) as Hsize.
  pose proof (bench_get_maxSize c (user_key userId)) as Hmax.
  destruct (negb (truthy (fst (Bench.get c (user_key userId))))); simpl.
  - rewrite <- Hmax. split; [|reflexivity].
    apply set_size_bound; rewrite Hmax; lia.
  - split; [lia | assumption].
Qed.

(** X26.  The LRU cache of the benchmark stays within its capacity: after
    any sequence of lookups, for any users and whatever the database answers,
    a cache constructed with a positive [maxSize] holds at most [maxSize]
    entries (1000 in the benchmark). *)
Theorem lru_benchmark_stays_within_capacity
    (findOne : Z -> JsValue) (capacity : Z) (userIds : list Z) :
  0 < capacity ->
  size (fold_left (fun c userId => fst (lru_benchmark_fn findOne c userId))
          userIds (Bench.constructor capacity)) <= capacity.
Proof.
  intros Hpos.
  assert (H : forall c : LRUCache,
            0 < maxSize c -> size c <= maxSize c ->
            size (fold_left
                    (fun c userId => fst (lru_benchmark_fn findOne c userId))
                    userIds c) <= maxSize c).
  { induction userIds as [| i rest IH]; intros c Hc Hle; [assumption|].
    simpl. destruct (lru_benchmark_step_bound findOne c i Hc Hle) as [Hb Hm].
    rewrite <- Hm. apply IH; rewrite Hm; assumption. }
  apply (H (Bench.constructor capacity)); [assumption|].
  unfold size, Map.size. simpl. lia.
Qed.

Lemma lru_benchmark_stays_within_capacity_witness :
  let findOne := fun userId : Z => JsObject (Z.to_nat userId) in
  0 < 2 /\
  size (fold_left (fun c userId => fst (lru_benchmark_fn findOne c userId))
          [1; 2; 3; 1] (Bench.constructor 2)) <= 2.
Proof.
  intros findOne. split; [lia|].
  refine (lru_benchmark_stays_within_capacity findOne 2 [1; 2; 3; 1] _). lia.
Defined.

Lemma get_loop_keeps (n : nat) (key : JsValue) :
  forall c : LRUCache,
  containsKey (get_loop n c key) key = containsKey c key /\
  Map.get (cache (get_loop n c key)) key = Map.get (cache c) key.
Proof.
  induction n as [| n IH]; intros c; [now split|].
  change (get_loop (S n) c key) with (get_loop n (snd (Bench.get c key)) key).
  destruct (IH (snd (Bench.get c key))) as [-> ->].
  split; [apply bench_get_keeps_has | apply bench_get_keeps_get].
Qed.

(** X27.  The hits of the timed benchmark: once [set(key, user)] has warmed
    the cache, each [get(key)] of the loop, after any number of earlier ones,
    returns [user] itself, whatever value that is. *)
Theorem warm_cache_always_hits
    (lruCache : LRUCache) (key user : JsValue) (n : nat) :
  fst (Bench.get (get_loop n (Bench.set lruCache key user) key) key) = user.
Proof.
  destruct (get_loop_keeps n key (Bench.set lruCache key user)) as [Hhas Hget].
  rewrite (bench_get_result_stable (Bench.set lruCache key user));
    [apply bench_get_after_set | assumption | assumption].
Qed.
